(** * cabana's DBCManager: channel-to-database resolution and edit notifications

    A shallow embedding of [tools/cabana/dbcmanager.cc].  The manager owns a
    [QList] of [(SourceSet, DBCFile* )] pairs and a fallback [sources] set; it
    resolves a source (channel) to the DBC file that governs it, forwards
    edits to that file and emits Qt signals.

    The embedding keeps the program's shape: the [DBCFile] objects live in a
    heap indexed by pointers, the member functions are computations in a
    small state-and-fault monad, and every [emit] is logged together with
    the memory an observer sees while its slot runs. *)

From Equations Require Import Equations.
From Equations.Prop Require Import Logic.
From stdpp Require Import gmap strings list fin_maps sorting.

Set Default Proof Using "Type".
Local Open Scope N_scope.

(** ** Plain data *)

(** [uint8_t] sources and [uint32_t] addresses are never computed with in
    this file, only compared and copied, so they are carried as [N]. *)
Abbreviation uint8_t := N.
Abbreviation uint32_t := N.
Abbreviation QString := string.

(** [SourceSet]: a set of sources with [contains], [|=], [==] and range-for
    iteration (rendered by [elements]). *)
Abbreviation SourceSet := (gset N).

(** A [DBCFile*]. *)
Abbreviation ptr := positive.

(** [struct MessageId { uint8_t source; uint32_t address; }] *)
Record MessageId := mkMessageId { source : uint8_t; address : uint32_t }.

#[global] Instance MessageId_eq_dec : EqDecision MessageId.
Proof. solve_decision. Defined.

#[global] Instance MessageId_countable : Countable MessageId.
Proof.
  refine (inj_countable' (λ id, (source id, address id))
                         (λ p, mkMessageId p.1 p.2) _).
  by intros [].
Defined.

(** ** What the headers declare

    [dbcmanager.cc] uses [DBCFile], [cabana::Signal], [cabana::Msg] and the
    constant [SOURCE_ALL] through their declarations only.  They are taken
    as an interface; the manager below is written against it. *)
Class Decls := {
  DBCFile : Type;
  Signal : Type;                (* cabana::Signal, by value *)
  SignalPtr : Type;             (* cabana::Signal *, never null *)
  Msg : Type;                   (* cabana::Msg *)
  SOURCE_ALL : SourceSet;
  (* [new DBCFile(name, this)]: the object, or the [what()] of the
     [std::exception] the constructor throws *)
  DBCFile_new : QString → QString + DBCFile;
  (* [new DBCFile(name, content, this)] *)
  DBCFile_new_content : QString → QString → QString + DBCFile;
  filename : DBCFile → QString;
  (* mutating members return the object after the call; a pointer result
     that may be [nullptr] is an [option] *)
  dbc_addSignal : MessageId → Signal → DBCFile → option SignalPtr * DBCFile;
  dbc_updateSignal :
    MessageId → QString → Signal → DBCFile → option SignalPtr * DBCFile;
  dbc_getSignal : MessageId → QString → DBCFile → option SignalPtr;
  dbc_removeSignal : MessageId → QString → DBCFile → DBCFile;
  dbc_updateMsg : MessageId → QString → uint32_t → DBCFile → DBCFile;
  dbc_removeMsg : MessageId → DBCFile → DBCFile;
  dbc_getMessages : DBCFile → gmap N Msg;     (* std::map<uint32_t, Msg> *)
  dbc_msg : MessageId → DBCFile → option Msg;
  dbc_msg_name : QString → DBCFile → option Msg;
}.

(** ** Memory, notifications and the monad *)

Section Monad.
Context {D : Decls}.

(** The manager's members and the heap its pointers point into. *)
Record World := mkWorld {
  dbc_files : list (SourceSet * ptr);   (* QList<std::pair<SourceSet, DBCFile*>> *)
  sources : SourceSet;
  heap : gmap ptr DBCFile;
}.

(** The Qt signals of [DBCManager]. *)
Inductive Notification :=
| DBCFileChanged
| signalAdded (id : MessageId) (s : SignalPtr)
| signalUpdated (s : SignalPtr)
| signalRemoved (s : SignalPtr)
| msgUpdated (id : MessageId)
| msgRemoved (id : MessageId).

(** Slots run synchronously inside [emit]; each logged notification carries
    the memory as it is at that moment. *)
Record State := mkState {
  world : World;
  emitted : list (Notification * World);
}.

(** A computation either faults (a failed [assert], a use of a pointer
    that is not live) or returns a value and the next state. *)
Definition M (A : Type) : Type := State → option (A * State).

Definition ret {A} (a : A) : M A := λ st, Some (a, st).

Definition bind {A B} (m : M A) (k : A → M B) : M B :=
  λ st, match m st with
        | Some (a, st') => k a st'
        | None => None
        end.

Definition fault {A} : M A := λ _, None.

Definition get : M World := λ st, Some (world st, st).

Definition put (w : World) : M unit :=
  λ st, Some (tt, mkState w (emitted st)).

Definition emit (e : Notification) : M unit :=
  λ st, Some (tt, mkState (world st) (emitted st ++ [(e, world st)])).

End Monad.

Declare Scope dbc_scope.
Delimit Scope dbc_scope with dbc.
Notation "x <- m ;; k" := (bind m (λ x, k))
  (at level 100, m at next level, right associativity) : dbc_scope.
Notation "m ;; k" := (bind m (λ _, k))
  (at level 100, right associativity) : dbc_scope.

(** ** The member functions *)

Section Members.
Context {D : Decls}.
Local Open Scope dbc_scope.

(** *** Pointers *)

(** Reading through a [DBCFile*]; a pointer that is not live faults. *)
Definition deref (p : ptr) : M DBCFile :=
  w <- get ;;
  match heap w !! p with
  | Some f => ret f
  | None => fault
  end.

(** [p->method(...)] for a member function that may change the object. *)
Definition call {A} (p : ptr) (method : DBCFile → A * DBCFile) : M A :=
  f <- deref p ;;
  w <- get ;;
  put (mkWorld (dbc_files w) (sources w) (<[p := (method f).2]> (heap w))) ;;
  ret (method f).1.

(** [p->method(...)] for a [void] member function. *)
Definition call_void (p : ptr) (method : DBCFile → DBCFile) : M unit :=
  call p (λ f, (tt, method f)).

(** [new DBCFile(...)] once the constructor has returned [f]: the object is
    placed at an address that is not in use. *)
Definition new (f : DBCFile) : M ptr :=
  w <- get ;;
  let p := fresh (dom (heap w)) in
  put (mkWorld (dbc_files w) (sources w) (<[p := f]> (heap w))) ;;
  ret p.

(** [delete p] on the memory. *)
Definition free_in (p : ptr) (w : World) : option World :=
  match heap w !! p with
  | Some _ => Some (mkWorld (dbc_files w) (sources w) (delete p (heap w)))
  | None => None
  end.

(** [delete p]; deleting what is not live faults. *)
Definition free (p : ptr) : M unit :=
  w <- get ;;
  match free_in p w with
  | Some w' => put w'
  | None => fault
  end.

(** [for (x : xs) body(x)] *)
Fixpoint for_each {A} (xs : list A) (body : A → M unit) : M unit :=
  match xs with
  | [] => ret tt
  | x :: xs' => body x ;; for_each xs' body
  end.

(** *** findDBCFile *)

(** First loop of [findDBCFile]: the first pair whose set contains
    [source]. *)
Fixpoint find_containing (source : uint8_t) (l : list (SourceSet * ptr))
  : option (SourceSet * ptr) :=
  match l with
  | [] => None
  | (source_set, dbc_file) :: l' =>
      if decide (source ∈ source_set) then Some (source_set, dbc_file)
      else find_containing source l'
  end.

(** Second loop: the file of the first pair whose set is [SOURCE_ALL]. *)
Fixpoint find_all (l : list (SourceSet * ptr)) : option ptr :=
  match l with
  | [] => None
  | (source_set, dbc_file) :: l' =>
      if decide (source_set = SOURCE_ALL) then Some dbc_file
      else find_all l'
  end.

(** [findDBCFile(const uint8_t source) const] *)
Definition findDBCFile (w : World) (source : uint8_t)
  : option (SourceSet * ptr) :=
  match find_containing source (dbc_files w) with
  | Some r => Some r
  | None =>
      match find_all (dbc_files w) with
      | Some dbc_file => Some (sources w, dbc_file)
      | None => None
      end
  end.

(** [findDBCFile(const MessageId &id) const] *)
Definition findDBCFile_id (w : World) (id : MessageId)
  : option (SourceSet * ptr) :=
  findDBCFile w (source id).

(** *** open *)

(** [if (error) *error = e.what();] on the string [error] points to
    ([None] for a null [error]). *)
Definition report (error : option QString) (what : QString)
  : option QString :=
  match error with
  | Some _ => Some what
  | None => None
  end.

(** [dbc_files[i] = x] *)
Definition set_entry (i : nat) (x : SourceSet * ptr) : M unit :=
  w <- get ;;
  put (mkWorld (<[i := x]> (dbc_files w)) (sources w) (heap w)).

(** [dbc_files.push_back(x)] *)
Definition push_back (x : SourceSet * ptr) : M unit :=
  w <- get ;;
  put (mkWorld (dbc_files w ++ [x]) (sources w) (heap w)).

(** The [for] loop of [open], from index [i] on; [entries] is
    [dbc_files] from [i] on (the loop returns right after the one change
    it makes to [dbc_files]).  [None]: the loop ran to its end. *)
Fixpoint open_scan (s : SourceSet) (dbc_file_name : QString)
    (error : option QString) (i : nat) (entries : list (SourceSet * ptr))
  : M (option (bool * option QString)) :=
  match entries with
  | [] => ret None
  | (ss, dbc_file) :: entries' =>
      f <- deref dbc_file ;;
      if decide (filename f = dbc_file_name) then
        (* [ss |= s]: [ss] is the copy made by [auto [ss, dbc_file] =
           dbc_files[i]], which goes out of scope at the [return] *)
        let ss := ss ∪ s in
        emit DBCFileChanged ;;
        ret (Some (true, error))
      else if decide (ss = s) then
        match DBCFile_new dbc_file_name with
        | inr d =>
            p <- new d ;;
            set_entry i (s, p) ;;
            free dbc_file ;;
            emit DBCFileChanged ;;
            ret (Some (true, error))
        | inl what => ret (Some (false, report error what))
        end
      else open_scan s dbc_file_name error (S i) entries'
  end.

(** [open(SourceSet s, const QString &dbc_file_name, QString *error)]:
    the returned [bool] and what [error] points to afterwards. *)
Definition open (s : SourceSet) (dbc_file_name : QString)
    (error : option QString) : M (bool * option QString) :=
  w <- get ;;
  r <- open_scan s dbc_file_name error 0 (dbc_files w) ;;
  match r with
  | Some r => ret r
  | None =>
      match DBCFile_new dbc_file_name with
      | inr d =>
          p <- new d ;;
          push_back (s, p) ;;
          emit DBCFileChanged ;;
          ret (true, error)
      | inl what => ret (false, report error what)
      end
  end.

(** [open(SourceSet s, const QString &name, const QString &content,
    QString *error)] *)
Definition open_content (s : SourceSet) (name content : QString)
    (error : option QString) : M (bool * option QString) :=
  match DBCFile_new_content name content with
  | inr d =>
      p <- new d ;;
      push_back (s, p) ;;
      emit DBCFileChanged ;;
      ret (true, error)
  | inl what => ret (false, report error what)
  end.

(** *** closeAll *)

(** [dbc_files.pop_back()] *)
Definition pop_back (w : World) : World :=
  mkWorld (removelast (dbc_files w)) (sources w) (heap w).

(** The [while (dbc_files.size())] loop of [closeAll]: take the last pair
    off the list and delete its file, until the list is empty. *)
Equations? closeAll_loop (w : World) : option World
  by wf (length (dbc_files w)) lt :=
  closeAll_loop w with inspect (last (dbc_files w)) := {
    | exist _ None _ => Some w
    | exist _ (Some (_, dbc_file)) Hback
        with inspect (free_in dbc_file (pop_back w)) := {
        | exist _ None _ => None
        | exist _ (Some w') Hdel => closeAll_loop w' } }.
Proof.
  unfold free_in in Hdel.
  destruct (heap (pop_back w) !! dbc_file); [|done].
  injection Hdel as <-. simpl.
  destruct (dbc_files w) as [|x l _] using rev_ind; [done|].
  rewrite removelast_last, length_app. simpl. lia.
Qed.

(** [closeAll()] *)
Definition closeAll : M unit :=
  w <- get ;;
  match closeAll_loop w with
  | Some w' => put w' ;; emit DBCFileChanged
  | None => fault
  end.

(** *** Edits *)

(** [addSignal(const MessageId &id, const cabana::Signal &sig)] *)
Definition addSignal (id : MessageId) (sig : Signal) : M unit :=
  w <- get ;;
  match findDBCFile_id w id with
  | None => fault                       (* assert(sources_dbc_file) *)
  | Some (dbc_sources, dbc_file) =>
      s <- call dbc_file (dbc_addSignal id sig) ;;
      match s with
      | Some s =>
          for_each (elements dbc_sources) (λ source,
            emit (signalAdded (mkMessageId source (address id)) s))
      | None => ret tt
      end
  end.

(** [updateSignal(const MessageId &id, const QString &sig_name,
    const cabana::Signal &sig)] *)
Definition updateSignal (id : MessageId) (sig_name : QString) (sig : Signal)
  : M unit :=
  w <- get ;;
  match findDBCFile_id w id with
  | None => fault
  | Some (_, dbc_file) =>
      s <- call dbc_file (dbc_updateSignal id sig_name sig) ;;
      match s with
      | Some s => emit (signalUpdated s)
      | None => ret tt
      end
  end.

(** [removeSignal(const MessageId &id, const QString &sig_name)] *)
Definition removeSignal (id : MessageId) (sig_name : QString) : M unit :=
  w <- get ;;
  match findDBCFile_id w id with
  | None => fault
  | Some (_, dbc_file) =>
      f <- deref dbc_file ;;
      match dbc_getSignal id sig_name f with
      | Some s =>
          emit (signalRemoved s) ;;
          call_void dbc_file (dbc_removeSignal id sig_name)
      | None => ret tt
      end
  end.

(** [updateMsg(const MessageId &id, const QString &name, uint32_t size)] *)
Definition updateMsg (id : MessageId) (name : QString) (size : uint32_t)
  : M unit :=
  w <- get ;;
  match findDBCFile_id w id with
  | None => fault
  | Some (dbc_sources, dbc_file) =>
      call_void dbc_file (dbc_updateMsg id name size) ;;
      for_each (elements dbc_sources) (λ source,
        emit (msgUpdated (mkMessageId source (address id))))
  end.

(** [removeMsg(const MessageId &id)] *)
Definition removeMsg (id : MessageId) : M unit :=
  w <- get ;;
  match findDBCFile_id w id with
  | None => fault
  | Some (dbc_sources, dbc_file) =>
      call_void dbc_file (dbc_removeMsg id) ;;
      for_each (elements dbc_sources) (λ source,
        emit (msgRemoved (mkMessageId source (address id))))
  end.

(** *** Queries *)

(** The loop of [getMessages]: [ret[{source, address}] = msg] for every
    entry of the file's message map. *)
Definition rekey (source : uint8_t) (msgs : gmap N Msg)
  : gmap MessageId Msg :=
  map_fold (λ address msg ret, <[mkMessageId source address := msg]> ret)
           ∅ msgs.

(** [getMessages(uint8_t source)] *)
Definition getMessages (source : uint8_t) : M (gmap MessageId Msg) :=
  w <- get ;;
  match findDBCFile_id w (mkMessageId source 0) with
  | None => ret ∅
  | Some (_, dbc_file) =>
      f <- deref dbc_file ;;
      ret (rekey source (dbc_getMessages f))
  end.

(** [msg(const MessageId &id) const] *)
Definition msg (id : MessageId) : M (option Msg) :=
  w <- get ;;
  match findDBCFile_id w id with
  | None => ret None
  | Some (_, dbc_file) =>
      f <- deref dbc_file ;;
      ret (dbc_msg id f)
  end.

(** [msg(uint8_t source, const QString &name)] *)
Definition msg_name (source : uint8_t) (name : QString) : M (option Msg) :=
  w <- get ;;
  match findDBCFile_id w (mkMessageId source 0) with
  | None => ret None
  | Some (_, dbc_file) =>
      f <- deref dbc_file ;;
      ret (dbc_msg_name name f)
  end.

(** [dbcCount() const] *)
Definition dbcCount (w : World) : Z := Z.of_nat (length (dbc_files w)).

(** [updateSources(const SourceSet &s)] *)
Definition updateSources (s : SourceSet) : M unit :=
  w <- get ;;
  put (mkWorld (dbc_files w) s (heap w)).

(** *** Ownership

    Every pointer the manager stores came from a [new] of its own and is
    deleted when it leaves [dbc_files]: the stored pointers are live, and
    no file is stored twice. *)
Definition live (w : World) : Prop :=
  Forall (λ x, is_Some (heap w !! x.2)) (dbc_files w).

Definition owns (w : World) : Prop :=
  NoDup (dbc_files w).*2 ∧ live w.

(** The manager as constructed: nothing open, no source known, nothing
    emitted. *)
Definition init : State := mkState (mkWorld [] ∅ ∅) [].

(** One returning call of a member function that is not [const]. *)
Inductive step : State → State → Prop :=
| step_open s name error r st st' :
    open s name error st = Some (r, st') → step st st'
| step_open_content s name content error r st st' :
    open_content s name content error st = Some (r, st') → step st st'
| step_closeAll st st' :
    closeAll st = Some (tt, st') → step st st'
| step_addSignal id sig st st' :
    addSignal id sig st = Some (tt, st') → step st st'
| step_updateSignal id sig_name sig st st' :
    updateSignal id sig_name sig st = Some (tt, st') → step st st'
| step_removeSignal id sig_name st st' :
    removeSignal id sig_name st = Some (tt, st') → step st st'
| step_updateMsg id name size st st' :
    updateMsg id name size st = Some (tt, st') → step st st'
| step_removeMsg id st st' :
    removeMsg id st = Some (tt, st') → step st st'
| step_getMessages src r st st' :
    getMessages src st = Some (r, st') → step st st'
| step_updateSources s st st' :
    updateSources s st = Some (tt, st') → step st st'.

(** The states the manager can be in. *)
Definition reachable (st : State) : Prop := rtc step init st.

(** The state after [emit e] in state [st]. *)
Definition after_emit (e : Notification) (st : State) : State :=
  mkState (world st) (emitted st ++ [(e, world st)]).

(** The memory after the object at [p] has become [f]. *)
Definition with_file (p : ptr) (f : DBCFile) (w : World) : World :=
  mkWorld (dbc_files w) (sources w) (<[p := f]> (heap w)).

End Members.

(** ** The aggregate queries *)

(** What [signalNames] and [msgCount] use of [DBCFile]:
    [QStringList signalNames()] and [int msgCount()]. *)
Class Aggregates {D : Decls} := {
  dbc_signalNames : DBCFile → list QString;
  dbc_msgCount : DBCFile → Z;
}.

Section AggregateQueries.
Context {D : Decls} {G : Aggregates}.
Local Open Scope dbc_scope.

(** The first loop of [signalNames]: [ret << dbc_file->signalNames()] for
    every pair of [dbc_files], in order. *)
Fixpoint collect_names (l : list (SourceSet * ptr)) (names : list QString)
  : M (list QString) :=
  match l with
  | [] => ret names
  | (_, dbc_file) :: l' =>
      f <- deref dbc_file ;;
      collect_names l' (names ++ dbc_signalNames f)
  end.

(** [QStringList::sort()]: ascending in the order of the strings, which
    compares them character by character ([String.le] on the strings
    here).  The order is total and antisymmetric, so the sorted list is
    the same whichever sorting algorithm produces it. *)
Definition sort (names : list QString) : list QString :=
  merge_sort String.le names.

(** [QStringList::removeDuplicates()]: one pass that keeps the first
    occurrence of every string, with the set of the strings seen so far. *)
Fixpoint remove_seen (seen : gset QString) (names : list QString)
  : list QString :=
  match names with
  | [] => []
  | x :: names' =>
      if decide (x ∈ seen) then remove_seen seen names'
      else x :: remove_seen ({[x]} ∪ seen) names'
  end.

Definition removeDuplicates (names : list QString) : list QString :=
  remove_seen ∅ names.

(** [signalNames() const] *)
Definition signalNames : M (list QString) :=
  w <- get ;;
  names <- collect_names (dbc_files w) [] ;;
  ret (removeDuplicates (sort names)).

(** [int]: 32 bits, two's complement. *)
Definition INT_MIN : Z := - 2 ^ 31.
Definition INT_MAX : Z := 2 ^ 31 - 1.

(** [a += b] on [int]s; signed overflow is undefined and faults. *)
Definition int_add (a b : Z) : M Z :=
  if decide (INT_MIN ≤ a + b ≤ INT_MAX)%Z then ret (a + b)%Z else fault.

(** The loop of [msgCount]: [ret += dbc_file->msgCount()]. *)
Fixpoint count_msgs (l : list (SourceSet * ptr)) (count : Z) : M Z :=
  match l with
  | [] => ret count
  | (_, dbc_file) :: l' =>
      f <- deref dbc_file ;;
      count' <- int_add count (dbc_msgCount f) ;;
      count_msgs l' count'
  end.

(** [msgCount() const] *)
Definition msgCount : M Z :=
  w <- get ;;
  count_msgs (dbc_files w) 0%Z.

(** The files of [dbc_files], in order (a pointer that is not live has
    none). *)
Definition stored_files (w : World) : list DBCFile :=
  omap (λ x, heap w !! x.2) (dbc_files w).

(** Nothing is live but what [dbc_files] points to. *)
Definition tight (w : World) : Prop :=
  ∀ p, is_Some (heap w !! p) → p ∈ (dbc_files w).*2.

End AggregateQueries.

(** ** Words for stating what [open] and the edits do *)

Section Paths.
Context {D : Decls}.

(** The loop of [open] goes past the pair [x]: its file is not the one
    asked for, and its set is not the one asked for. *)
Definition passed (s : SourceSet) (name : QString) (w : World)
    (x : SourceSet * ptr) : Prop :=
  ∃ f, heap w !! x.2 = Some f ∧ filename f ≠ name ∧ x.1 ≠ s.

(** The pointer the next [new] returns. *)
Definition next_ptr (w : World) : ptr := fresh (dom (heap w)).

(** One returning call of one of the five edits. *)
Inductive edit (id : MessageId) : State → State → Prop :=
| edit_addSignal sig st st' :
    addSignal id sig st = Some (tt, st') → edit id st st'
| edit_updateSignal sig_name sig st st' :
    updateSignal id sig_name sig st = Some (tt, st') → edit id st st'
| edit_removeSignal sig_name st st' :
    removeSignal id sig_name st = Some (tt, st') → edit id st st'
| edit_updateMsg name size st st' :
    updateMsg id name size st = Some (tt, st') → edit id st st'
| edit_removeMsg st st' :
    removeMsg id st = Some (tt, st') → edit id st st'.

End Paths.

(** ** A small database, for running the manager on concrete inputs *)

Module Simple.

(** Modelled from the spec: [DBCFile], [cabana::Signal] and [cabana::Msg]
    (their headers and [dbcfile.cc] are not part of the sources at hand).
    A database "owns zero or more Messages, each identified by address
    within that database, each owning zero or more Signals identified by
    name within the message"; a message has a name and a byte length. *)
Record signal := mkSignal { sig_name : string; sig_bits : N }.

Record message := mkMessage {
  m_name : string;
  m_size : N;
  m_sigs : list signal;
}.

Record dbcfile := mkDbc { d_filename : string; d_msgs : gmap N message }.

#[global] Instance signal_eq_dec : EqDecision signal.
Proof. solve_decision. Defined.

(** Modelled from the spec: signals are "identified by name within the
    message". *)
Definition has_signal (name : string) (m : message) : bool :=
  bool_decide (name ∈ sig_name <$> m_sigs m).

(** Modelled from the spec: the signals of the message at an address,
    none when the database has no such message. *)
Definition sigs_at (a : N) (d : dbcfile) : list signal :=
  match d_msgs d !! a with
  | Some m => m_sigs m
  | None => []
  end.

(** Modelled from the spec: construction from a source reference fails
    with a human-readable error string; here the empty reference is the
    one that cannot be loaded. *)
Definition load (name : string) : string + dbcfile :=
  if decide (name = "") then inl "Failed to open file"
  else inr (mkDbc name ∅).

(** Modelled from the spec: construction from inline content, which
    fails on content that cannot be read (here: empty content). *)
Definition load_content (name content : string) : string + dbcfile :=
  if decide (content = "") then inl "Failed to parse content"
  else inr (mkDbc name ∅).

(** Modelled from the spec: insertion creates the message when it is
    missing and declines a duplicate signal name. *)
Definition add_signal (id : MessageId) (sig : signal) (d : dbcfile)
  : option (N * string) * dbcfile :=
  let m := default (mkMessage "" 0 []) (d_msgs d !! address id) in
  if has_signal (sig_name sig) m then (None, d)
  else (Some (address id, sig_name sig),
        mkDbc (d_filename d)
              (<[address id := mkMessage (m_name m) (m_size m)
                                         (m_sigs m ++ [sig])]> (d_msgs d))).

(** Modelled from the spec: lookup of a signal by message address and
    name; the reference to a signal is its address and name. *)
Definition get_signal (id : MessageId) (name : string) (d : dbcfile)
  : option (N * string) :=
  match d_msgs d !! address id with
  | Some m => if has_signal name m then Some (address id, name) else None
  | None => None
  end.

(** Modelled from the spec: "an in-place rename/update on the message's
    signal named [oldName]", declined when there is no such signal. *)
Definition update_signal (id : MessageId) (name : string) (sig : signal)
    (d : dbcfile) : option (N * string) * dbcfile :=
  match d_msgs d !! address id with
  | Some m =>
      if has_signal name m then
        (Some (address id, sig_name sig),
         mkDbc (d_filename d)
               (<[address id := mkMessage (m_name m) (m_size m)
                    ((λ x, if decide (sig_name x = name) then sig else x)
                       <$> m_sigs m)]> (d_msgs d)))
      else (None, d)
  | None => (None, d)
  end.

(** Modelled from the spec: removal of a signal by name. *)
Definition remove_signal (id : MessageId) (name : string) (d : dbcfile)
  : dbcfile :=
  match d_msgs d !! address id with
  | Some m =>
      mkDbc (d_filename d)
            (<[address id := mkMessage (m_name m) (m_size m)
                 (filter (λ x, sig_name x ≠ name) (m_sigs m))]> (d_msgs d))
  | None => d
  end.

(** Modelled from the spec: "update of the message's name/byte-length". *)
Definition update_msg (id : MessageId) (name : string) (size : N)
    (d : dbcfile) : dbcfile :=
  mkDbc (d_filename d)
        (<[address id := mkMessage name size (sigs_at (address id) d)]>
           (d_msgs d)).

(** Modelled from the spec: removal of the message at an address; a
    database without such a message stays as it is. *)
Definition remove_msg (id : MessageId) (d : dbcfile) : dbcfile :=
  mkDbc (d_filename d) (delete (address id) (d_msgs d)).

(** Modelled from the spec: "lookup by name". *)
Definition msg_by_name (name : string) (d : dbcfile) : option message :=
  head (filter (λ m, m_name m = name) (map_to_list (d_msgs d)).*2).

(** Modelled from the spec: the declarations, on the small database.  The
    reserved value [SOURCE_ALL] is taken to be the empty set: it claims no
    source of its own. *)
#[global] Instance decls : Decls := {|
  DBCFile := dbcfile;
  Signal := signal;
  SignalPtr := N * string;
  Msg := message;
  SOURCE_ALL := ∅;
  DBCFile_new := load;
  DBCFile_new_content := load_content;
  filename := d_filename;
  dbc_addSignal := add_signal;
  dbc_updateSignal := update_signal;
  dbc_getSignal := get_signal;
  dbc_removeSignal := remove_signal;
  dbc_updateMsg := update_msg;
  dbc_removeMsg := remove_msg;
  dbc_getMessages := d_msgs;
  dbc_msg := λ id d, d_msgs d !! address id;
  dbc_msg_name := msg_by_name;
|}.

(** A manager holding [a.dbc], which defines no message, for source 1. *)
Definition file_a : dbcfile := mkDbc "a.dbc" ∅.
Definition world_a : World :=
  mkWorld [({[1]}, 1%positive)] ∅ {[1%positive := file_a]}.

(** A manager holding [b.dbc], with one message at address 16 that has a
    signal [speed], shared by the sources 1, 2 and 3. *)
Definition speed : signal := mkSignal "speed" 8.
Definition file_b : dbcfile :=
  mkDbc "b.dbc" {[16 := mkMessage "WHEEL" 8 [speed]]}.
Definition world_b : World :=
  mkWorld [({[1; 2; 3]}, 1%positive)] ∅ {[1%positive := file_b]}.

(** A manager holding [a.dbc] as the wildcard file and [b.dbc] for source
    1, that has been told of the sources 1 and 7. *)
Definition world_ab : World :=
  mkWorld [(∅, 1%positive); ({[1]}, 2%positive)] {[1; 7]}
          {[1%positive := file_a; 2%positive := file_b]}.

End Simple.

Module SimpleAggregates.
Import Simple.

(** Modelled from the spec: "all signal names" of a database are the names
    of the signals of its messages. *)
Definition signal_names (d : dbcfile) : list string :=
  (map_to_list (d_msgs d)).*2 ≫= (λ m, sig_name <$> m_sigs m).

(** Modelled from the spec: the "message count" of a database is the
    number of its messages. *)
Definition msg_count (d : dbcfile) : Z := Z.of_nat (size (d_msgs d)).

#[global] Instance aggregates : Aggregates (D := decls) := {|
  dbc_signalNames := signal_names;
  dbc_msgCount := msg_count;
|}.

(** [c.dbc]: two messages, with the signals [speed], [rpm] and [angle]. *)
Definition file_c : dbcfile :=
  mkDbc "c.dbc"
    {[16 := mkMessage "WHEEL" 8 [speed; mkSignal "rpm" 16];
      32 := mkMessage "STEER" 4 [mkSignal "angle" 12]]}.

(** A manager holding [b.dbc] for source 0 and [c.dbc] for source 1. *)
Definition world_bc : World :=
  mkWorld [({[0]}, 1%positive); ({[1]}, 2%positive)] ∅
          {[1%positive := file_b; 2%positive := file_c]}.

(** A manager holding [a.dbc] for source 0 and [b.dbc] for source 1. *)
Definition world_two : World :=
  mkWorld [({[0]}, 1%positive); ({[1]}, 2%positive)] ∅
          {[1%positive := file_a; 2%positive := file_b]}.

(** A manager holding [a.dbc] as the one, wildcard, file. *)
Definition world_wild : World :=
  mkWorld [(∅, 1%positive)] ∅ {[1%positive := file_a]}.

(** The state after [open({1}, "a.dbc")] on the manager as constructed. *)
Definition st_opened : State := mkState world_a [(DBCFileChanged, world_a)].

End SimpleAggregates.

(** ** Resolution *)

Section Resolution.
Context {D : Decls}.
Implicit Types (w : World) (l pre post : list (SourceSet * ptr)).

Lemma find_containing_first c pre ss f post :
  (∀ x, x ∈ pre → c ∉ x.1) → c ∈ ss →
  find_containing c (pre ++ (ss, f) :: post) = Some (ss, f).
Proof.
  intros Hpre Hin. induction pre as [|[ss' f'] pre IH]; simpl.
  - by rewrite decide_True.
  - rewrite decide_False.
    + apply IH. intros x Hx. apply Hpre. by right.
    + apply (Hpre (ss', f')). by left.
Qed.

Lemma find_containing_none c l :
  (∀ x, x ∈ l → c ∉ x.1) → find_containing c l = None.
Proof.
  induction l as [|[ss f] l IH]; intros Hl; simpl; [done|].
  rewrite decide_False.
  - apply IH. intros x Hx. apply Hl. by right.
  - apply (Hl (ss, f)). by left.
Qed.

Lemma find_containing_Some c l ss f :
  find_containing c l = Some (ss, f) → (ss, f) ∈ l ∧ c ∈ ss.
Proof.
  induction l as [|[ss' f'] l IH]; simpl; [done|].
  case_decide.
  - intros [= <- <-]. split; [by left|done].
  - intros Hl. destruct (IH Hl). split; [by right|done].
Qed.

Lemma find_containing_is_Some c l ss f :
  (ss, f) ∈ l → c ∈ ss → is_Some (find_containing c l).
Proof.
  induction l as [|[ss' f'] l IH]; simpl.
  - by intros ?%elem_of_nil.
  - intros [[= <- <-]|Hl]%elem_of_cons Hc.
    + by rewrite decide_True.
    + case_decide; [done|]. by apply IH.
Qed.

Lemma find_all_first pre f post :
  (∀ x, x ∈ pre → x.1 ≠ SOURCE_ALL) →
  find_all (pre ++ (SOURCE_ALL, f) :: post) = Some f.
Proof.
  intros Hpre. induction pre as [|[ss' f'] pre IH]; simpl.
  - by rewrite decide_True.
  - rewrite decide_False.
    + apply IH. intros x Hx. apply Hpre. by right.
    + apply (Hpre (ss', f')). by left.
Qed.

Lemma find_all_none l :
  (∀ x, x ∈ l → x.1 ≠ SOURCE_ALL) → find_all l = None.
Proof.
  induction l as [|[ss f] l IH]; intros Hl; simpl; [done|].
  rewrite decide_False.
  - apply IH. intros x Hx. apply Hl. by right.
  - apply (Hl (ss, f)). by left.
Qed.

Lemma find_all_Some l f :
  find_all l = Some f → (SOURCE_ALL, f) ∈ l.
Proof.
  induction l as [|[ss' f'] l IH]; simpl; [done|].
  case_decide as Hss.
  - intros [= <-]. rewrite <- Hss. by left.
  - intros Hl. right. by apply IH.
Qed.

(** Whatever [findDBCFile] returns points to a file of [dbc_files]. *)
Lemma findDBCFile_elem w c ss f :
  findDBCFile w c = Some (ss, f) → f ∈ (dbc_files w).*2.
Proof.
  unfold findDBCFile.
  destruct (find_containing c (dbc_files w)) as [[ss' f']|] eqn:E1.
  - intros [= <- <-]. apply find_containing_Some in E1 as [Hin _].
    apply list_elem_of_fmap. by exists (ss', f').
  - destruct (find_all (dbc_files w)) as [f'|] eqn:E2; [|done].
    intros [= <- <-]. apply find_all_Some in E2.
    apply list_elem_of_fmap. by exists (SOURCE_ALL, f').
Qed.

(** C1. [findDBCFile] returns the first pair of [dbc_files], in list
    order, whose set contains the source; when no set contains it, the
    file of the first pair whose set equals [SOURCE_ALL], paired with the
    manager's [sources] (not with [SOURCE_ALL]); when there is neither,
    nothing.  Hence, whenever some pair's set contains the source, the
    result is a pair of the list whose set contains the source, never the
    [SOURCE_ALL] fall-back. *)
Theorem findDBCFile_policy w (c : uint8_t) :
  (∀ pre ss f post,
     dbc_files w = pre ++ (ss, f) :: post →
     (∀ x, x ∈ pre → c ∉ x.1) → c ∈ ss →
     findDBCFile w c = Some (ss, f))
  ∧ (∀ pre f post,
       dbc_files w = pre ++ (SOURCE_ALL, f) :: post →
       (∀ x, x ∈ dbc_files w → c ∉ x.1) →
       (∀ x, x ∈ pre → x.1 ≠ SOURCE_ALL) →
       findDBCFile w c = Some (sources w, f))
  ∧ ((∀ x, x ∈ dbc_files w → (c ∉ x.1) ∧ x.1 ≠ SOURCE_ALL) →
     findDBCFile w c = None)
  ∧ (∀ ss f,
       (ss, f) ∈ dbc_files w → c ∈ ss →
       ∃ ss' f', findDBCFile w c = Some (ss', f')
                 ∧ (ss', f') ∈ dbc_files w ∧ c ∈ ss'
                 ∧ (c ∉ SOURCE_ALL → ss' ≠ SOURCE_ALL)).
Proof.
  unfold findDBCFile. repeat split.
  - intros pre ss f post -> Hpre Hc.
    by rewrite find_containing_first.
  - intros pre f post Hl Hnone Hpre.
    rewrite find_containing_none by done.
    rewrite Hl. by rewrite find_all_first.
  - intros Hl. rewrite find_containing_none by (intros; by apply Hl).
    rewrite find_all_none; [done|]. intros; by apply Hl.
  - intros ss f Hin Hc.
    destruct (find_containing_is_Some c _ _ _ Hin Hc) as [[ss' f'] E].
    rewrite E. apply find_containing_Some in E as [??].
    exists ss', f'. repeat split; [done..|]. by intros ? ->.
Qed.

(** C10. [findDBCFile(const MessageId &)] looks at the source of the key
    only: two keys with the same source resolve alike, whatever their
    addresses.  So resolving with address 0, as [getMessages] and
    [msg(source, name)] do, is resolving the source, and [msg(id)] picks
    its file by [id.source] alone. *)
Theorem findDBCFile_ignores_address w (id1 id2 : MessageId) :
  source id1 = source id2 →
  findDBCFile_id w id1 = findDBCFile_id w id2
  ∧ findDBCFile_id w (mkMessageId (source id1) 0) = findDBCFile_id w id2
  ∧ (∀ st, world st = w →
       msg id1 st =
         match findDBCFile w (source id2) with
         | None => Some (None, st)
         | Some (_, dbc_file) =>
             match heap w !! dbc_file with
             | Some f => Some (dbc_msg id1 f, st)
             | None => None
             end
         end)
  ∧ (∀ st name, world st = w →
       msg_name (source id1) name st =
         match findDBCFile w (source id2) with
         | None => Some (None, st)
         | Some (_, dbc_file) =>
             match heap w !! dbc_file with
             | Some f => Some (dbc_msg_name name f, st)
             | None => None
             end
         end)
  ∧ (∀ st, world st = w →
       getMessages (source id1) st =
         match findDBCFile w (source id2) with
         | None => Some (∅, st)
         | Some (_, dbc_file) =>
             match heap w !! dbc_file with
             | Some f => Some (rekey (source id1) (dbc_getMessages f), st)
             | None => None
             end
         end).
Proof.
  intros Hsrc. unfold findDBCFile_id. simpl. rewrite Hsrc.
  repeat split; try done.
  all: intros st; intros; subst w.
  all: unfold msg, msg_name, getMessages, findDBCFile_id, deref, bind, get;
    simpl; rewrite ?Hsrc.
  all: destruct (findDBCFile (world st) (source id2)) as [[ss p]|]; [|done].
  all: by destruct (heap (world st) !! p).
Qed.

End Resolution.

(** ** Running the member functions *)

Section Running.
Context {D : Decls}.
Local Open Scope dbc_scope.
Implicit Types (w : World) (st : State).

Lemma deref_live st p f :
  heap (world st) !! p = Some f → deref p st = Some (f, st).
Proof. intros E. unfold deref, bind, get, ret. simpl. by rewrite E. Qed.

Lemma deref_eq st p :
  deref p st =
    match heap (world st) !! p with
    | Some f => Some (f, st)
    | None => None
    end.
Proof.
  unfold deref, bind, get, ret, fault. simpl.
  by destruct (heap (world st) !! p).
Qed.

Lemma call_eq {A} st p (method : DBCFile → A * DBCFile) :
  call p method st =
    match heap (world st) !! p with
    | Some f =>
        Some ((method f).1,
              mkState (with_file p (method f).2 (world st)) (emitted st))
    | None => None
    end.
Proof.
  unfold call, bind. rewrite deref_eq.
  by destruct (heap (world st) !! p).
Qed.

Lemma call_live {A} st p f (method : DBCFile → A * DBCFile) :
  heap (world st) !! p = Some f →
  call p method st =
    Some ((method f).1,
          mkState (with_file p (method f).2 (world st)) (emitted st)).
Proof.
  intros E. unfold call, bind. rewrite (deref_live _ _ _ E). done.
Qed.

Lemma for_each_emit {A} (xs : list A) (e : A → Notification) st :
  for_each xs (λ x, emit (e x)) st =
    Some (tt, mkState (world st)
                      (emitted st ++ map (λ x, (e x, world st)) xs)).
Proof.
  revert st. induction xs as [|x xs IH]; intros st; simpl.
  - unfold ret. rewrite app_nil_r. by destruct st.
  - unfold bind, emit. rewrite IH. simpl. by rewrite <- app_assoc.
Qed.

Lemma free_live st p f :
  heap (world st) !! p = Some f →
  free p st =
    Some (tt, mkState (mkWorld (dbc_files (world st)) (sources (world st))
                               (delete p (heap (world st))))
                      (emitted st)).
Proof.
  intros E. unfold free, free_in, bind, get, put. simpl. by rewrite E.
Qed.

Lemma with_file_same w p f :
  heap w !! p = Some f → with_file p f w = w.
Proof.
  intros E. unfold with_file. rewrite (insert_id _ _ _ E). by destruct w.
Qed.

End Running.

(** ** Edits and their notifications *)

Section Edits.
Context {D : Decls}.
Local Open Scope dbc_scope.
Implicit Types (w : World) (st : State) (id : MessageId).

(** What each edit does: it faults when its key does not resolve or the
    resolved pointer is not live, and otherwise returns as follows. *)

Lemma addSignal_eq st id (sig : Signal) :
  addSignal id sig st =
    match findDBCFile_id (world st) id with
    | Some (dbc_sources, dbc_file) =>
        match heap (world st) !! dbc_file with
        | Some f =>
            let w' :=
              with_file dbc_file (dbc_addSignal id sig f).2 (world st) in
            Some (tt, mkState w'
              (emitted st ++
               match (dbc_addSignal id sig f).1 with
               | Some s =>
                   map (λ c,
                     (signalAdded (mkMessageId c (address id)) s, w'))
                     (elements dbc_sources)
               | None => []
               end))
        | None => None
        end
    | None => None
    end.
Proof.
  unfold addSignal, bind at 1, get. simpl.
  destruct (findDBCFile_id (world st) id) as [[dbc_sources dbc_file]|];
    [|done].
  unfold bind. rewrite call_eq.
  destruct (heap (world st) !! dbc_file) as [f|]; [|done]. simpl.
  destruct (dbc_addSignal id sig f).1 as [s|].
  - by rewrite for_each_emit.
  - unfold ret. by rewrite app_nil_r.
Qed.

Lemma updateSignal_eq st id (sig_name : QString) (sig : Signal) :
  updateSignal id sig_name sig st =
    match findDBCFile_id (world st) id with
    | Some (_, dbc_file) =>
        match heap (world st) !! dbc_file with
        | Some f =>
            let w' :=
              with_file dbc_file (dbc_updateSignal id sig_name sig f).2
                        (world st) in
            Some (tt, mkState w'
              (emitted st ++
               match (dbc_updateSignal id sig_name sig f).1 with
               | Some s => [(signalUpdated s, w')]
               | None => []
               end))
        | None => None
        end
    | None => None
    end.
Proof.
  unfold updateSignal, bind at 1, get. simpl.
  destruct (findDBCFile_id (world st) id) as [[dbc_sources dbc_file]|];
    [|done].
  unfold bind. rewrite call_eq.
  destruct (heap (world st) !! dbc_file) as [f|]; [|done]. simpl.
  destruct (dbc_updateSignal id sig_name sig f).1 as [s|]; [done|].
  unfold ret. by rewrite app_nil_r.
Qed.

Lemma removeSignal_eq st id (sig_name : QString) :
  removeSignal id sig_name st =
    match findDBCFile_id (world st) id with
    | Some (_, dbc_file) =>
        match heap (world st) !! dbc_file with
        | Some f =>
            Some (tt,
              match dbc_getSignal id sig_name f with
              | Some s =>
                  mkState
                    (with_file dbc_file (dbc_removeSignal id sig_name f)
                               (world st))
                    (emitted st ++ [(signalRemoved s, world st)])
              | None => st
              end)
        | None => None
        end
    | None => None
    end.
Proof.
  unfold removeSignal, bind at 1, get. simpl.
  destruct (findDBCFile_id (world st) id) as [[dbc_sources dbc_file]|];
    [|done].
  unfold bind at 1. rewrite deref_eq.
  destruct (heap (world st) !! dbc_file) as [f|] eqn:Hf; [|done].
  destruct (dbc_getSignal id sig_name f) as [s|]; [|done].
  unfold bind, emit, call_void. simpl.
  by rewrite (call_live (mkState _ _) _ f).
Qed.

Lemma updateMsg_eq st id (name : QString) (size : uint32_t) :
  updateMsg id name size st =
    match findDBCFile_id (world st) id with
    | Some (dbc_sources, dbc_file) =>
        match heap (world st) !! dbc_file with
        | Some f =>
            let w' :=
              with_file dbc_file (dbc_updateMsg id name size f) (world st) in
            Some (tt, mkState w'
              (emitted st ++
               map (λ c, (msgUpdated (mkMessageId c (address id)), w'))
                   (elements dbc_sources)))
        | None => None
        end
    | None => None
    end.
Proof.
  unfold updateMsg, bind at 1, get. simpl.
  destruct (findDBCFile_id (world st) id) as [[dbc_sources dbc_file]|];
    [|done].
  unfold bind, call_void. rewrite call_eq.
  destruct (heap (world st) !! dbc_file) as [f|]; [|done]. simpl.
  by rewrite for_each_emit.
Qed.

Lemma removeMsg_eq st id :
  removeMsg id st =
    match findDBCFile_id (world st) id with
    | Some (dbc_sources, dbc_file) =>
        match heap (world st) !! dbc_file with
        | Some f =>
            let w' := with_file dbc_file (dbc_removeMsg id f) (world st) in
            Some (tt, mkState w'
              (emitted st ++
               map (λ c, (msgRemoved (mkMessageId c (address id)), w'))
                   (elements dbc_sources)))
        | None => None
        end
    | None => None
    end.
Proof.
  unfold removeMsg, bind at 1, get. simpl.
  destruct (findDBCFile_id (world st) id) as [[dbc_sources dbc_file]|];
    [|done].
  unfold bind, call_void. rewrite call_eq.
  destruct (heap (world st) !! dbc_file) as [f|]; [|done]. simpl.
  by rewrite for_each_emit.
Qed.

(** C4. When the key resolves and the file accepts the signal,
    [addSignal] emits [signalAdded] once for every source of the resolved
    set and for no other, each with that source, the address of the key
    and the pointer the file returned; when the file returns [nullptr],
    it emits nothing. *)
Theorem addSignal_fan_out st id (sig : Signal) dbc_sources dbc_file f :
  findDBCFile_id (world st) id = Some (dbc_sources, dbc_file) →
  heap (world st) !! dbc_file = Some f →
  let w' := with_file dbc_file (dbc_addSignal id sig f).2 (world st) in
  match (dbc_addSignal id sig f).1 with
  | Some s =>
      ∃ chans : list uint8_t,
        addSignal id sig st =
          Some (tt, mkState w'
            (emitted st ++
             map (λ c, (signalAdded (mkMessageId c (address id)) s, w'))
                 chans))
        ∧ NoDup chans
        ∧ (∀ c, c ∈ chans ↔ c ∈ dbc_sources)
        ∧ length chans = size dbc_sources
  | None => addSignal id sig st = Some (tt, mkState w' (emitted st))
  end.
Proof.
  intros Hfind Hlive w'.
  rewrite addSignal_eq, Hfind, Hlive. simpl. fold w'.
  destruct (dbc_addSignal id sig f).1 as [s|].
  - exists (elements dbc_sources).
    split_and!; [done|apply NoDup_elements|apply elem_of_elements|done].
  - by rewrite app_nil_r.
Qed.

(** C5. When the key resolves and the file updates the signal,
    [updateSignal] emits [signalUpdated] once, with the pointer the file
    returned, however many sources the resolved set has. *)
Theorem updateSignal_single st id (sig_name : QString) (sig : Signal)
    dbc_sources dbc_file f s :
  findDBCFile_id (world st) id = Some (dbc_sources, dbc_file) →
  heap (world st) !! dbc_file = Some f →
  (dbc_updateSignal id sig_name sig f).1 = Some s →
  let w' :=
    with_file dbc_file (dbc_updateSignal id sig_name sig f).2 (world st) in
  updateSignal id sig_name sig st =
    Some (tt, mkState w' (emitted st ++ [(signalUpdated s, w')])).
Proof.
  intros Hfind Hlive Hs w'.
  rewrite updateSignal_eq, Hfind, Hlive. simpl. by rewrite Hs.
Qed.

(** C6. When the key resolves and the file has the named signal,
    [removeSignal] emits [signalRemoved] once, with the pointer
    [getSignal] returned, while the memory is still as [removeSignal]
    found it (the file still has the signal), and only afterwards lets the
    file remove it; when the file does not have the signal, nothing is
    emitted and nothing is removed. *)
Theorem removeSignal_notifies_first st id (sig_name : QString)
    dbc_sources dbc_file f :
  findDBCFile_id (world st) id = Some (dbc_sources, dbc_file) →
  heap (world st) !! dbc_file = Some f →
  match dbc_getSignal id sig_name f with
  | Some s =>
      ∃ seen st',
        removeSignal id sig_name st = Some (tt, st')
        ∧ emitted st' = emitted st ++ [(signalRemoved s, seen)]
        ∧ seen = world st
        ∧ (∃ f', heap seen !! dbc_file = Some f'
                 ∧ dbc_getSignal id sig_name f' = Some s)
        ∧ world st' =
            with_file dbc_file (dbc_removeSignal id sig_name f) seen
  | None => removeSignal id sig_name st = Some (tt, st)
  end.
Proof.
  intros Hfind Hlive.
  rewrite removeSignal_eq, Hfind, Hlive.
  destruct (dbc_getSignal id sig_name f) as [s|] eqn:Hs; [|done].
  eexists _, _. split_and!; [done..| |done]. by exists f.
Qed.

(** C7, as the code has it.  The three signal edits look at what the file
    returns: when it returns [nullptr] ([addSignal], [updateSignal]) or
    does not have the signal ([removeSignal]), nothing is emitted and the
    manager changes nothing of its own, so the state is as before when the
    file left itself as it was.  [updateMsg] and [removeMsg] use no result
    of the call they make: they emit once for every source of the resolved
    set, whatever the file did. *)
Theorem edits_on_rejection st id dbc_sources dbc_file f :
  findDBCFile_id (world st) id = Some (dbc_sources, dbc_file) →
  heap (world st) !! dbc_file = Some f →
  (∀ sig, (dbc_addSignal id sig f).1 = None →
     ∃ w', addSignal id sig st = Some (tt, mkState w' (emitted st))
           ∧ w' = with_file dbc_file (dbc_addSignal id sig f).2 (world st)
           ∧ ((dbc_addSignal id sig f).2 = f → w' = world st))
  ∧ (∀ sig_name sig, (dbc_updateSignal id sig_name sig f).1 = None →
       ∃ w', updateSignal id sig_name sig st
               = Some (tt, mkState w' (emitted st))
             ∧ w' = with_file dbc_file
                      (dbc_updateSignal id sig_name sig f).2 (world st)
             ∧ ((dbc_updateSignal id sig_name sig f).2 = f → w' = world st))
  ∧ (∀ sig_name, dbc_getSignal id sig_name f = None →
       removeSignal id sig_name st = Some (tt, st))
  ∧ (∀ name size,
       let w' :=
         with_file dbc_file (dbc_updateMsg id name size f) (world st) in
       updateMsg id name size st =
         Some (tt, mkState w'
           (emitted st ++
            map (λ c, (msgUpdated (mkMessageId c (address id)), w'))
                (elements dbc_sources))))
  ∧ (let w' := with_file dbc_file (dbc_removeMsg id f) (world st) in
     removeMsg id st =
       Some (tt, mkState w'
         (emitted st ++
          map (λ c, (msgRemoved (mkMessageId c (address id)), w'))
              (elements dbc_sources)))).
Proof.
  intros Hfind Hlive. split_and!.
  - intros sig Hrej. eexists. split_and!; [|reflexivity|].
    + rewrite addSignal_eq, Hfind, Hlive, Hrej. simpl.
      by rewrite app_nil_r.
    + intros ->. by apply with_file_same.
  - intros sig_name sig Hrej. eexists. split_and!; [|reflexivity|].
    + rewrite updateSignal_eq, Hfind, Hlive, Hrej. simpl.
      by rewrite app_nil_r.
    + intros ->. by apply with_file_same.
  - intros sig_name Hrej.
    by rewrite removeSignal_eq, Hfind, Hlive, Hrej.
  - intros name size. by rewrite updateMsg_eq, Hfind, Hlive.
  - by rewrite removeMsg_eq, Hfind, Hlive.
Qed.

End Edits.

(** ** Queries *)

Section Queries.
Context {D : Decls}.
Implicit Types (w : World) (st : State).

Lemma rekey_lookup (src : uint8_t) (msgs : gmap N Msg) (id : MessageId) :
  rekey src msgs !! id =
    if decide (source id = src) then msgs !! address id else None.
Proof.
  unfold rekey. revert id.
  apply (map_fold_weak_ind (λ r m, ∀ id : MessageId,
    r !! id = if decide (source id = src) then m !! address id else None)).
  - intros id. rewrite !lookup_empty. by case_decide.
  - intros a x m r Hfresh IH [c a']. simpl.
    destruct (decide (a = a')) as [->|Hne].
    + destruct (decide (c = src)) as [->|Hc].
      * by rewrite !lookup_insert_eq.
      * rewrite lookup_insert_ne by congruence.
        rewrite IH. simpl. by rewrite decide_False.
    + rewrite lookup_insert_ne by congruence.
      rewrite IH. simpl. by rewrite lookup_insert_ne.
Qed.

(** C8. [getMessages]: for a source that does not resolve the result is
    the empty map, and the state is untouched; for a source that resolves
    the result has, under the key (queried source, address), exactly the
    message the resolved file has under that address, and nothing under
    any other key. *)
Theorem getMessages_rekeys st (src : uint8_t) :
  (findDBCFile (world st) src = None →
   getMessages src st = Some (∅, st))
  ∧ (∀ dbc_sources dbc_file f,
       findDBCFile (world st) src = Some (dbc_sources, dbc_file) →
       heap (world st) !! dbc_file = Some f →
       ∃ ret : gmap MessageId Msg,
         getMessages src st = Some (ret, st)
         ∧ (∀ a, ret !! mkMessageId src a = dbc_getMessages f !! a)
         ∧ (∀ c a, c ≠ src → ret !! mkMessageId c a = None)).
Proof.
  unfold getMessages, findDBCFile_id, bind, get. simpl. split.
  - by intros ->.
  - intros dbc_sources dbc_file f -> Hlive.
    rewrite (deref_live _ _ _ Hlive).
    eexists. split; [done|]. split.
    + intros a. rewrite rekey_lookup. simpl. by rewrite decide_True.
    + intros c a Hc. rewrite rekey_lookup. simpl. by rewrite decide_False.
Qed.

End Queries.

(** ** closeAll *)

Section CloseAll.
Context {D : Decls}.
Implicit Types (w : World) (st : State).

Lemma closeAll_loop_step w :
  closeAll_loop w =
    match last (dbc_files w) with
    | None => Some w
    | Some (_, dbc_file) =>
        match free_in dbc_file (pop_back w) with
        | Some w' => closeAll_loop w'
        | None => None
        end
    end.
Proof.
  funelim (closeAll_loop w);
    match goal with E : last _ = _ |- _ => rewrite E end;
    try match goal with E : free_in _ _ = _ |- _ => rewrite E end;
    done.
Qed.

Lemma closeAll_loop_owned (l : list (SourceSet * ptr)) :
  ∀ w, dbc_files w = l → owns w →
    ∃ h, closeAll_loop w = Some (mkWorld [] (sources w) h)
         ∧ ∀ p, h !! p = if decide (p ∈ l.*2) then None else heap w !! p.
Proof.
  induction l as [|[ss q] l IH] using rev_ind; intros w Hl [Hnd Hlive].
  - exists (heap w). rewrite closeAll_loop_step, Hl. simpl.
    split; [destruct w; simpl in *; by subst|].
    done.
  - unfold live in Hlive. rewrite Hl in Hnd, Hlive.
    rewrite fmap_app in Hnd. simpl in Hnd.
    apply NoDup_app in Hnd as (Hnd & Hq & _).
    apply Forall_app in Hlive as [Hlive [[f Hf] _]%Forall_cons].
    simpl in Hf.
    rewrite closeAll_loop_step, Hl, last_snoc.
    unfold free_in, pop_back. simpl. rewrite Hf, Hl, removelast_last.
    set (w1 := mkWorld l (sources w) (delete q (heap w))).
    destruct (IH w1 eq_refl) as (h & Hrun & Hh).
    { split; [done|]. unfold live. simpl.
      apply Forall_forall. intros [ss' p'] Hin.
      rewrite Forall_forall in Hlive. simpl.
      rewrite lookup_delete_ne; [by apply (Hlive (ss', p'))|].
      intros <-. apply (Hq q); [|by left].
      apply list_elem_of_fmap. by exists (ss', q). }
    exists h. split; [done|]. intros p. rewrite Hh. simpl.
    rewrite fmap_app. simpl.
    destruct (decide (p = q)) as [->|Hne].
    + rewrite lookup_delete_eq.
      rewrite (decide_True (P := q ∈ _ ++ _)); [by case_decide|].
      apply elem_of_app. right. by left.
    + rewrite lookup_delete_ne by done.
      case_decide as Hl'; case_decide as Hlq; try done; exfalso.
      * apply Hlq, elem_of_app. by left.
      * apply elem_of_app in Hlq as [?|?%list_elem_of_singleton]; done.
Qed.

(** C9. [closeAll], from any state in which the manager owns its files:
    it returns; afterwards [dbc_files] is empty, [dbcCount()] is 0, no
    source resolves, every file the manager held has been deleted and no
    other, and the call has emitted [DBCFileChanged] exactly once, after
    the list was emptied. *)
Theorem closeAll_clears st :
  owns (world st) →
  ∃ w',
    closeAll st = Some (tt, mkState w' (emitted st ++ [(DBCFileChanged, w')]))
    ∧ dbc_files w' = []
    ∧ dbcCount w' = 0%Z
    ∧ (∀ c, findDBCFile w' c = None)
    ∧ sources w' = sources (world st)
    ∧ (∀ p, heap w' !! p =
            if decide (p ∈ (dbc_files (world st)).*2) then None
            else heap (world st) !! p).
Proof.
  intros Howns.
  destruct (closeAll_loop_owned _ (world st) eq_refl Howns)
    as (h & Hrun & Hh).
  exists (mkWorld [] (sources (world st)) h). split_and!; try done.
  unfold closeAll, bind, get. simpl. by rewrite Hrun.
Qed.

End CloseAll.

(** ** open *)

Section Open.
Context {D : Decls}.
Local Open Scope dbc_scope.
Implicit Types (w : World) (st : State).

(** One turn of the loop of [open], on a live file. *)
Lemma open_scan_cons st (s : SourceSet) (name : QString) error i ss p f
    (entries : list (SourceSet * ptr)) :
  heap (world st) !! p = Some f →
  open_scan s name error i ((ss, p) :: entries) st =
    if decide (filename f = name) then
      Some (Some (true, error), after_emit DBCFileChanged st)
    else if decide (ss = s) then
      match DBCFile_new name with
      | inr d =>
          (p' <- new d ;;
           set_entry i (s, p') ;;
           free p ;;
           emit DBCFileChanged ;;
           ret (Some (true, error))) st
      | inl what => Some (Some (false, report error what), st)
      end
    else open_scan s name error (S i) entries st.
Proof.
  intros Hf. simpl. unfold bind at 1. rewrite (deref_live _ _ _ Hf).
  repeat case_decide; try done. by destruct (DBCFile_new name).
Qed.


(** [open] is its loop, then the [push_back] path. *)
Lemma open_after_scan st (s : SourceSet) (name : QString) error :
  open s name error st =
    match open_scan s name error 0 (dbc_files (world st)) st with
    | Some (Some r, st') => Some (r, st')
    | Some (None, st') =>
        match DBCFile_new name with
        | inr d =>
            (p <- new d ;;
             push_back (s, p) ;;
             emit DBCFileChanged ;;
             ret (true, error)) st'
        | inl what => Some ((false, report error what), st')
        end
    | None => None
    end.
Proof.
  unfold open, bind at 1, get. simpl. unfold bind at 1.
  destruct (open_scan _ _ _ _ _ _) as [[[r|] st']|]; try done.
  by destruct (DBCFile_new name).
Qed.


(** C2, on the code.  Opening one file name for the set {1} and then for
    the set {2}, from a manager that holds nothing: both calls return
    [true] and one file is held ([dbcCount() == 1]), but its set is still
    {1}; the [ss |= s] of the second call is made on a copy of the pair,
    so source 2 is not in any stored set. *)
Theorem open_same_file_twice (name : QString) (d : DBCFile)
    (known : SourceSet) error1 error2 :
  DBCFile_new name = inr d →
  filename d = name →
  ∃ p st1 st2,
    open {[1]} name error1 (mkState (mkWorld [] known ∅) []) =
      Some ((true, error1), st1)
    ∧ open {[2]} name error2 st1 = Some ((true, error2), st2)
    ∧ dbc_files (world st2) = [({[1]}, p)]
    ∧ heap (world st2) !! p = Some d
    ∧ dbcCount (world st2) = 1%Z
    ∧ dbc_files (world st2) ≠ [({[1; 2]}, p)]
    ∧ find_containing 2 (dbc_files (world st2)) = None.
Proof.
  intros Hctor Hname.
  set (p := fresh (dom (∅ : gmap ptr DBCFile))).
  set (w1 := mkWorld [({[1]}, p)] known {[p := d]}).
  exists p, (mkState w1 [(DBCFileChanged, w1)]),
    (mkState w1 [(DBCFileChanged, w1); (DBCFileChanged, w1)]).
  split_and!; try done.
  - rewrite open_after_scan. simpl. unfold ret at 1. by rewrite Hctor.
  - rewrite open_after_scan. simpl dbc_files.
    rewrite (open_scan_cons _ _ _ _ _ _ _ d)
      by (simpl; apply lookup_insert_eq).
    by rewrite decide_True.
Qed.

End Open.

(** ** The manager owns its files, in every state it can reach *)

Section Ownership.
Context {D : Decls}.
Local Open Scope dbc_scope.
Implicit Types (w : World) (st : State) (id : MessageId).

Lemma findDBCFile_live w (c : uint8_t) dbc_sources dbc_file :
  live w → findDBCFile w c = Some (dbc_sources, dbc_file) →
  is_Some (heap w !! dbc_file).
Proof.
  intros Hlive Hfind. apply findDBCFile_elem in Hfind.
  apply list_elem_of_fmap in Hfind as ([ss p] & -> & Hin).
  unfold live in Hlive. rewrite Forall_forall in Hlive.
  by apply (Hlive (ss, p)).
Qed.

Lemma owns_with_file w p f :
  owns w → is_Some (heap w !! p) → owns (with_file p f w).
Proof.
  intros [Hnd Hlive] Hp. split; [done|].
  unfold live in *. simpl. eapply Forall_impl; [exact Hlive|].
  intros [ss q] Hq. simpl in *.
  destruct (decide (p = q)) as [->|Hne].
  - by rewrite lookup_insert_eq.
  - by rewrite lookup_insert_ne.
Qed.

Lemma fresh_not_stored w :
  live w → fresh (dom (heap w)) ∉ (dbc_files w).*2.
Proof.
  intros Hlive Hin.
  apply list_elem_of_fmap in Hin as ([ss p] & Hp & Hin). simpl in Hp.
  unfold live in Hlive. rewrite Forall_forall in Hlive.
  apply (is_fresh (dom (heap w))). rewrite Hp.
  apply elem_of_dom. by apply (Hlive (ss, p)).
Qed.

(** [push_back] of a file just made by [new]. *)
Lemma owns_push_back w (s : SourceSet) d :
  owns w →
  owns (mkWorld (dbc_files w ++ [(s, fresh (dom (heap w)))]) (sources w)
                (<[fresh (dom (heap w)) := d]> (heap w))).
Proof.
  intros [Hnd Hlive]. pose proof (fresh_not_stored w Hlive) as Hfresh.
  split; simpl.
  - rewrite fmap_app. apply NoDup_app. split_and!; [done| |].
    + intros q Hq ->%list_elem_of_singleton. done.
    + apply NoDup_singleton.
  - unfold live in *. simpl. apply Forall_app. split.
    + eapply Forall_impl; [exact Hlive|]. intros [ss q] Hq. simpl in *.
      destruct (decide (fresh (dom (heap w)) = q)) as [->|Hne].
      * by rewrite lookup_insert_eq.
      * by rewrite lookup_insert_ne.
    + constructor; [|done]. simpl. by rewrite lookup_insert_eq.
Qed.

(** The replacement in [open]: a file just made by [new] takes the place of
    the file at [p], which is deleted. *)
Lemma owns_replace (pre post : list (SourceSet * ptr)) ss p (s : SourceSet)
    known h d :
  owns (mkWorld (pre ++ (ss, p) :: post) known h) →
  owns (mkWorld (pre ++ (s, fresh (dom h)) :: post) known
                (delete p (<[fresh (dom h) := d]> h))).
Proof.
  intros [Hnd Hlive].
  pose proof (fresh_not_stored _ Hlive) as Hfresh.
  unfold live in *. simpl in *.
  rewrite fmap_app, fmap_cons in Hnd, Hfresh. simpl in Hnd, Hfresh.
  apply NoDup_app in Hnd as (Hpre & Hdisj & [Hp Hpost]%NoDup_cons).
  apply Forall_app in Hlive as [Hlpre [Hlp Hlpost]%Forall_cons].
  simpl in Hlp.
  assert (fresh (dom h) ≠ p) as Hne.
  { intros E. apply Hfresh, elem_of_app. right. rewrite E. by left. }
  assert (∀ x : SourceSet * ptr, x.2 ≠ p → is_Some (h !! x.2) →
            is_Some (delete p (<[fresh (dom h) := d]> h) !! x.2)) as Hkeep.
  { intros [ss' q] Hq Hsome. simpl in *.
    rewrite lookup_delete_ne by done.
    destruct (decide (fresh (dom h) = q)) as [->|?].
    - by rewrite lookup_insert_eq.
    - by rewrite lookup_insert_ne. }
  split; simpl.
  - rewrite fmap_app, fmap_cons. simpl. apply NoDup_app. split_and!.
    + done.
    + intros q Hq [->|Hq']%elem_of_cons.
      * apply Hfresh, elem_of_app. by left.
      * apply (Hdisj q Hq). by right.
    + apply NoDup_cons. split; [|done].
      intros Hq. apply Hfresh, elem_of_app. right. by right.
  - apply Forall_app. split; [|constructor].
    + rewrite Forall_forall in Hlpre. apply Forall_forall.
      intros x Hx. apply Hkeep; [|by apply Hlpre].
      intros E. apply (Hdisj p); [|by left].
      apply list_elem_of_fmap. by exists x.
    + simpl. rewrite lookup_delete_ne by done. by rewrite lookup_insert_eq.
    + rewrite Forall_forall in Hlpost. apply Forall_forall.
      intros x Hx. apply Hkeep; [|by apply Hlpost].
      intros E. apply Hp. apply list_elem_of_fmap. by exists x.
Qed.

(** The loop of [open] returns, and leaves a state the manager owns. *)
Lemma open_scan_owns (s : SourceSet) (name : QString) error
    (entries : list (SourceSet * ptr)) :
  ∀ pre st,
    dbc_files (world st) = pre ++ entries → owns (world st) →
    ∃ r st',
      open_scan s name error (length pre) entries st = Some (r, st')
      ∧ owns (world st').
Proof.
  induction entries as [|[ss p] entries IH]; intros pre st Hfiles Howns.
  - by exists None, st.
  - destruct Howns as [Hnd Hlive].
    assert (is_Some (heap (world st) !! p)) as [f Hf].
    { unfold live in Hlive. rewrite Hfiles in Hlive.
      by apply Forall_app in Hlive as [_ [? _]%Forall_cons]. }
    rewrite (open_scan_cons _ _ _ _ _ _ _ _ _ Hf).
    case_decide as Hname; [by eexists _, _|].
    case_decide as Hss.
    + destruct (DBCFile_new name) as [what|d]; [by eexists _, _|].
      assert (fresh (dom (heap (world st))) ≠ p) as Hne.
      { intros E. apply (is_fresh (dom (heap (world st)))).
        rewrite E. apply elem_of_dom. by exists f. }
      eexists _, _. split.
      * unfold bind, new, set_entry, get, put, emit, ret. simpl.
        rewrite (free_live _ p f)
          by (simpl; by rewrite lookup_insert_ne).
        reflexivity.
      * simpl. rewrite Hfiles.
        replace (length pre) with (length pre + 0)%nat by lia.
        rewrite insert_app_r. simpl.
        apply (owns_replace pre entries ss p).
        rewrite <- Hfiles. by destruct (world st).
    + destruct (IH (pre ++ [(ss, p)]) st) as (r & st' & Hrun & Howns').
      * by rewrite <- app_assoc.
      * done.
      * rewrite length_app in Hrun. simpl in Hrun.
        rewrite Nat.add_1_r in Hrun. by exists r, st'.
Qed.

Lemma open_owns st (s : SourceSet) (name : QString) error :
  owns (world st) →
  ∃ r st', open s name error st = Some (r, st') ∧ owns (world st').
Proof.
  intros Howns. rewrite open_after_scan.
  destruct (open_scan_owns s name error (dbc_files (world st)) [] st
              eq_refl Howns) as (r & st' & Hrun & Howns').
  simpl in Hrun. rewrite Hrun. destruct r as [r|]; [by eexists _, _|].
  destruct (DBCFile_new name) as [what|d]; [by eexists _, _|].
  eexists _, _. split; [reflexivity|]. simpl.
  by apply owns_push_back.
Qed.

Lemma open_content_owns st (s : SourceSet) (name content : QString) error :
  owns (world st) →
  ∃ r st',
    open_content s name content error st = Some (r, st')
    ∧ owns (world st').
Proof.
  intros Howns. unfold open_content.
  destruct (DBCFile_new_content name content) as [what|d];
    [by eexists _, _|].
  eexists _, _. split; [reflexivity|]. simpl.
  by apply owns_push_back.
Qed.

(** An edit that returns leaves a state the manager owns. *)
Ltac edit_owns Hrun Howns :=
  destruct (findDBCFile_id _ _) as [[? ?p]|]; [|discriminate Hrun];
  match type of Hrun with
  | match ?h !! ?p with _ => _ end = _ =>
      destruct (h !! p) as [?f|] eqn:?Hf; [|discriminate Hrun]
  end;
  injection Hrun as <-;
  repeat case_match; try done;
  by apply owns_with_file.

Lemma step_owns st st' : step st st' → owns (world st) → owns (world st').
Proof.
  intros Hstep Howns. destruct Hstep as
    [s name error r st st' Hrun
    |s name content error r st st' Hrun
    |st st' Hrun
    |id sig st st' Hrun
    |id sig_name sig st st' Hrun
    |id sig_name st st' Hrun
    |id name size st st' Hrun
    |id st st' Hrun
    |src r st st' Hrun
    |s st st' Hrun].
  - destruct (open_owns st s name error Howns) as (? & ? & E & ?).
    rewrite E in Hrun. by injection Hrun as _ <-.
  - destruct (open_content_owns st s name content error Howns)
      as (? & ? & E & ?).
    rewrite E in Hrun. by injection Hrun as _ <-.
  - destruct (closeAll_loop_owned _ (world st) eq_refl Howns)
      as (h & E & _).
    unfold closeAll, bind, get in Hrun. simpl in Hrun.
    rewrite E in Hrun. injection Hrun as <-.
    split; [|unfold live]; constructor.
  - rewrite addSignal_eq in Hrun. edit_owns Hrun Howns.
  - rewrite updateSignal_eq in Hrun. edit_owns Hrun Howns.
  - rewrite removeSignal_eq in Hrun. edit_owns Hrun Howns.
  - rewrite updateMsg_eq in Hrun. edit_owns Hrun Howns.
  - rewrite removeMsg_eq in Hrun. edit_owns Hrun Howns.
  - unfold getMessages, bind, get in Hrun. simpl in Hrun.
    destruct (findDBCFile_id _ _) as [[? p]|]; [|by injection Hrun as _ <-].
    unfold deref, bind, get in Hrun. simpl in Hrun.
    destruct (heap (world st) !! p); [|done]. by injection Hrun as _ <-.
  - injection Hrun as <-. destruct Howns. by split.
Qed.

(** In every state the manager can reach, the pointers it stores are live
    and pairwise different. *)
Lemma reachable_owns st : reachable st → owns (world st).
Proof.
  revert st. apply (rtc_ind_r (λ st, owns (world st)) init).
  - split; [|unfold live]; constructor.
  - intros st1 st2 _ Hstep IH. by eapply step_owns.
Qed.

End Ownership.

(** ** The manager at work on the small database *)

Section Examples.
Import Simple.
Local Open Scope dbc_scope.

Lemma findDBCFile_policy_witness :
  findDBCFile world_ab 1 = Some ({[1]}, 2%positive)
  ∧ findDBCFile world_ab 7 = Some ({[1; 7]}, 1%positive)
  ∧ findDBCFile world_a 7 = None.
Proof.
  destruct (findDBCFile_policy (D := decls) world_ab 1) as (Hfirst & _ & _ & _).
  destruct (findDBCFile_policy (D := decls) world_ab 7) as (_ & Hall & _ & _).
  destruct (findDBCFile_policy (D := decls) world_a 7) as (_ & _ & Hnone & _).
  split_and!.
  - apply (Hfirst [(∅, 1%positive)] {[1]} 2%positive []);
      [reflexivity| |compute_done].
    apply Forall_forall. compute_done.
  - apply (Hall [] 1%positive [({[1]}, 2%positive)]); [reflexivity|..];
      apply Forall_forall; compute_done.
  - apply Hnone. apply Forall_forall. compute_done.
Defined.

Lemma findDBCFile_ignores_address_witness :
  findDBCFile_id world_ab (mkMessageId 1 16)
    = findDBCFile_id world_ab (mkMessageId 1 99)
  ∧ findDBCFile_id world_ab (mkMessageId 1 0)
    = findDBCFile_id world_ab (mkMessageId 1 99).
Proof.
  destruct (findDBCFile_ignores_address (D := decls) world_ab
              (mkMessageId 1 16) (mkMessageId 1 99) eq_refl)
    as (Hsame & Hzero & _).
  by split.
Defined.

Lemma open_same_file_twice_witness :
  ∃ st2, (open {[1]} "a.dbc" None ;; open {[2]} "a.dbc" None) init
           = Some ((true, None), st2)
         ∧ (dbc_files (world st2)).*1 = [{[1]}]
         ∧ findDBCFile (world st2) 2 = None.
Proof.
  destruct (open_same_file_twice (D := decls) "a.dbc" file_a ∅ None None
              eq_refl eq_refl)
    as (p & st1 & st2 & Hopen1 & Hopen2 & Hfiles & _).
  exists st2. unfold bind at 1.
  change (mkState (mkWorld [] ∅ ∅) []) with (init (D := decls)) in Hopen1.
  rewrite Hopen1, Hopen2. unfold findDBCFile. rewrite Hfiles.
  split_and!; [done..|compute_done].
Defined.


Lemma addSignal_fan_out_witness :
  ∃ chans w',
    addSignal (mkMessageId 1 16) (mkSignal "rpm" 16) (mkState world_b [])
      = Some (tt, mkState w'
          (map (λ c, (signalAdded (mkMessageId c 16) (16, "rpm"), w')) chans))
    ∧ length chans = 3%nat
    ∧ ∀ c, c ∈ chans ↔ c ∈ ({[1; 2; 3]} : gset N).
Proof.
  destruct (addSignal_fan_out (D := decls) (mkState world_b []) (mkMessageId 1 16)
              (mkSignal "rpm" 16) {[1; 2; 3]} 1%positive file_b
              eq_refl eq_refl)
    as (chans & Hrun & _ & Hin & Hlen).
  eexists chans, _. split_and!; [exact Hrun|exact Hlen|exact Hin].
Defined.

Lemma updateSignal_single_witness :
  ∃ w',
    updateSignal (mkMessageId 2 16) "speed" (mkSignal "speed" 16)
                 (mkState world_b [])
      = Some (tt, mkState w' [(signalUpdated (16, "speed"), w')]).
Proof.
  eexists.
  exact (updateSignal_single (D := decls) (mkState world_b []) (mkMessageId 2 16)
           "speed" (mkSignal "speed" 16) {[1; 2; 3]} 1%positive file_b
           (16, "speed") eq_refl eq_refl eq_refl).
Defined.

Lemma removeSignal_notifies_first_witness :
  ∃ st',
    removeSignal (mkMessageId 3 16) "speed" (mkState world_b [])
      = Some (tt, st')
    ∧ emitted st' = [(signalRemoved (16, "speed"), world_b)]
    ∧ get_signal (mkMessageId 3 16) "speed" file_b = Some (16, "speed")
    ∧ (f ← heap (world st') !! 1%positive;
       get_signal (mkMessageId 3 16) "speed" f) = None.
Proof.
  destruct (removeSignal_notifies_first (D := decls) (mkState world_b [])
              (mkMessageId 3 16) "speed" {[1; 2; 3]} 1%positive file_b
              eq_refl eq_refl)
    as (seen & st' & Hrun & Hlog & -> & _ & Hworld).
  exists st'. split_and!; [done..|].
  rewrite Hworld. compute_done.
Defined.

(** C7 fails on [removeMsg]: a file that has no message at the address
    rejects the removal (it stays as it is), and [msgRemoved] is emitted
    all the same. *)
Lemma removeMsg_notifies_on_rejection :
  findDBCFile_id world_a (mkMessageId 1 5) = Some ({[1]}, 1%positive)
  ∧ heap world_a !! 1%positive = Some file_a
  ∧ dbc_msg (mkMessageId 1 5) file_a = None
  ∧ dbc_removeMsg (mkMessageId 1 5) file_a = file_a
  ∧ removeMsg (mkMessageId 1 5) (mkState world_a [])
    = Some (tt, mkState world_a [(msgRemoved (mkMessageId 1 5), world_a)]).
Proof. split_and!; reflexivity. Qed.

Lemma edits_on_rejection_witness :
  addSignal (mkMessageId 1 16) speed (mkState world_b [])
    = Some (tt, mkState world_b [])
  ∧ updateSignal (mkMessageId 1 16) "rpm" speed (mkState world_b [])
    = Some (tt, mkState world_b [])
  ∧ removeSignal (mkMessageId 1 16) "rpm" (mkState world_b [])
    = Some (tt, mkState world_b [])
  ∧ ∃ w', removeMsg (mkMessageId 1 5) (mkState world_b [])
          = Some (tt, mkState w'
              (map (λ c, (msgRemoved (mkMessageId c 5), w'))
                   (elements ({[1; 2; 3]} : gset N)))).
Proof.
  destruct (edits_on_rejection (D := decls) (mkState world_b []) (mkMessageId 1 16)
              {[1; 2; 3]} 1%positive file_b eq_refl eq_refl)
    as (Hadd & Hupdate & Hremove & _ & _).
  destruct (edits_on_rejection (D := decls) (mkState world_b []) (mkMessageId 1 5)
              {[1; 2; 3]} 1%positive file_b eq_refl eq_refl)
    as (_ & _ & _ & _ & HremoveMsg).
  split_and!.
  - destruct (Hadd speed eq_refl) as (w' & -> & _ & Hsame).
    by rewrite Hsame.
  - destruct (Hupdate "rpm" speed eq_refl) as (w' & -> & _ & Hsame).
    by rewrite Hsame.
  - by apply Hremove.
  - eexists. exact HremoveMsg.
Defined.

Lemma getMessages_rekeys_witness :
  getMessages 7 (mkState world_a []) = Some (∅, mkState world_a [])
  ∧ ∃ ret, getMessages 2 (mkState world_b [])
             = Some (ret, mkState world_b [])
           ∧ ret !! mkMessageId 2 16 = Some (mkMessage "WHEEL" 8 [speed])
           ∧ ret !! mkMessageId 1 16 = None.
Proof.
  destruct (getMessages_rekeys (D := decls) (mkState world_a []) 7) as [Hnone _].
  destruct (getMessages_rekeys (D := decls) (mkState world_b []) 2) as [_ Hsome].
  split; [by apply Hnone|].
  destruct (Hsome {[1; 2; 3]} 1%positive file_b eq_refl eq_refl)
    as (ret & Hrun & Hkey & Hother).
  exists ret. split_and!; [done| |by apply Hother].
  by rewrite Hkey.
Defined.

Lemma closeAll_clears_witness :
  owns world_ab
  ∧ ∃ w', closeAll (mkState world_ab [])
            = Some (tt, mkState w' [(DBCFileChanged, w')])
          ∧ dbcCount w' = 0%Z
          ∧ findDBCFile w' 1 = None
          ∧ heap w' !! 1%positive = None
          ∧ heap w' !! 2%positive = None.
Proof.
  assert (owns world_ab) as Howns by (unfold owns, live; compute_done).
  split; [done|].
  destruct (closeAll_clears (D := decls) (mkState world_ab []) Howns)
    as (w' & Hrun & _ & Hcount & Hfind & _ & Hheap).
  exists w'. split_and!; [done..| |]; rewrite Hheap; compute_done.
Defined.

End Examples.

(** ** More on open *)

Section OpenPaths.
Context {D : Decls}.
Local Open Scope dbc_scope.
Implicit Types (w : World) (st : State) (l pre post : list (SourceSet * ptr)).

(** One turn of the loop of [open]. *)
Lemma open_scan_unfold st (s : SourceSet) (name : QString) error i ss p l :
  open_scan s name error i ((ss, p) :: l) st =
    match heap (world st) !! p with
    | None => None
    | Some f =>
        if decide (filename f = name) then
          Some (Some (true, error), after_emit DBCFileChanged st)
        else if decide (ss = s) then
          match DBCFile_new name with
          | inr d =>
              Some (Some (true, error),
                    after_emit DBCFileChanged
                      (mkState
                         (mkWorld (<[i := (s, next_ptr (world st))]>
                                     (dbc_files (world st)))
                                  (sources (world st))
                                  (delete p (<[next_ptr (world st) := d]>
                                               (heap (world st)))))
                         (emitted st)))
          | inl what => Some (Some (false, report error what), st)
          end
        else open_scan s name error (S i) l st
    end.
Proof.
  destruct (heap (world st) !! p) as [f|] eqn:Hf.
  - rewrite (open_scan_cons _ _ _ _ _ _ _ _ _ Hf).
    repeat case_decide; try done.
    destruct (DBCFile_new name) as [what|d]; [done|].
    assert (next_ptr (world st) ≠ p) as Hne.
    { intros E. apply (is_fresh (dom (heap (world st)))).
      unfold next_ptr in E. rewrite E. apply elem_of_dom. by exists f. }
    unfold bind, new, set_entry, get, put, emit, ret. simpl.
    rewrite (free_live _ p f) by (simpl; by rewrite lookup_insert_ne).
    done.
  - simpl. unfold bind at 1. by rewrite deref_eq, Hf.
Qed.

(** The loop goes past the pairs that are [passed]. *)
Lemma open_scan_pass st (s : SourceSet) (name : QString) error pre :
  Forall (passed s name (world st)) pre →
  ∀ i l,
    open_scan s name error i (pre ++ l) st =
    open_scan s name error (i + length pre) l st.
Proof.
  induction 1 as [|[ss p] pre (f & Hf & Hname & Hss) _ IH]; intros i l.
  - simpl. by rewrite Nat.add_0_r.
  - simpl in Hf, Hss. rewrite <- app_comm_cons, open_scan_unfold, Hf.
    rewrite decide_False, decide_False by done.
    rewrite IH. simpl. f_equal. lia.
Qed.

Lemma find_containing_app (c : uint8_t) l l' :
  find_containing c (l ++ l') =
    match find_containing c l with
    | Some r => Some r
    | None => find_containing c l'
    end.
Proof.
  induction l as [|[ss p] l IH]; simpl; [done|]. by case_decide.
Qed.

Lemma find_all_app l l' :
  find_all (l ++ l') =
    match find_all l with
    | Some p => Some p
    | None => find_all l'
    end.
Proof.
  induction l as [|[ss p] l IH]; simpl; [done|]. by case_decide.
Qed.

Lemma next_ptr_fresh w : heap w !! next_ptr w = None.
Proof.
  apply not_elem_of_dom. unfold next_ptr. apply is_fresh.
Qed.

(** What a pair pushed at the back does to resolution. *)
Lemma findDBCFile_push_back w w' (s : SourceSet) p :
  dbc_files w' = dbc_files w ++ [(s, p)] →
  (∀ c r, find_containing c (dbc_files w) = Some r →
          findDBCFile w' c = Some r)
  ∧ (∀ c, c ∈ s → find_containing c (dbc_files w) = None →
          findDBCFile w' c = Some (s, p)).
Proof.
  intros Hfiles. unfold findDBCFile. rewrite Hfiles. split.
  - intros c r Hr. by rewrite find_containing_app, Hr.
  - intros c Hc Hnone. rewrite find_containing_app, Hnone. simpl.
    by rewrite decide_True.
Qed.

(** X3. [open] for a file name that no open file has and a set that no
    pair has, when the constructor succeeds: the new file goes to an
    address that was not in use, its pair goes to the back of
    [dbc_files], [dbcCount()] grows by one, [true] is returned and
    [DBCFileChanged] is emitted once, after the change.  A source that
    some set contained before resolves as before; a source of the new set
    that no set contained before resolves to the new file. *)
Theorem open_appends st (s : SourceSet) (name : QString) error d :
  Forall (passed s name (world st)) (dbc_files (world st)) →
  DBCFile_new name = inr d →
  ∃ p' st',
    open s name error st = Some ((true, error), st')
    ∧ dbc_files (world st') = dbc_files (world st) ++ [(s, p')]
    ∧ heap (world st) !! p' = None
    ∧ heap (world st') = <[p' := d]> (heap (world st))
    ∧ dbcCount (world st') = (dbcCount (world st) + 1)%Z
    ∧ emitted st' = emitted st ++ [(DBCFileChanged, world st')]
    ∧ (∀ c r, find_containing c (dbc_files (world st)) = Some r →
              findDBCFile (world st') c = Some r)
    ∧ (∀ c, c ∈ s → find_containing c (dbc_files (world st)) = None →
            findDBCFile (world st') c = Some (s, p')).
Proof.
  intros Hpass Hctor.
  pose proof (open_scan_pass st s name error _ Hpass 0 []) as Hscan.
  rewrite app_nil_r in Hscan.
  set (p' := next_ptr (world st)).
  set (w' := mkWorld (dbc_files (world st) ++ [(s, p')]) (sources (world st))
                     (<[p' := d]> (heap (world st)))).
  destruct (findDBCFile_push_back (world st) w' s p' eq_refl)
    as [Hbefore Hnew].
  exists p', (mkState w' (emitted st ++ [(DBCFileChanged, w')])).
  split_and!; try done.
  - by rewrite open_after_scan, Hscan, Hctor.
  - apply next_ptr_fresh.
  - unfold dbcCount. simpl. rewrite length_app. simpl. lia.
Qed.

(** X4. [open] for a set that a pair has, when the loop reaches that pair
    first, its file has another name and the constructor succeeds: the
    pair keeps its place and its set and gets the new file, which is at an
    address that was not in use; the old file is deleted; no other file
    and no other pair changes; [dbcCount()] stays; [true] is returned and
    [DBCFileChanged] is emitted once, after the change. *)
Theorem open_replaces st (s : SourceSet) (name : QString) error
    pre p f post d :
  dbc_files (world st) = pre ++ (s, p) :: post →
  Forall (passed s name (world st)) pre →
  heap (world st) !! p = Some f →
  filename f ≠ name →
  DBCFile_new name = inr d →
  ∃ p' st',
    open s name error st = Some ((true, error), st')
    ∧ dbc_files (world st') = pre ++ (s, p') :: post
    ∧ p' ≠ p
    ∧ heap (world st) !! p' = None
    ∧ heap (world st') !! p' = Some d
    ∧ heap (world st') !! p = None
    ∧ (∀ q, q ≠ p → q ≠ p' →
            heap (world st') !! q = heap (world st) !! q)
    ∧ dbcCount (world st') = dbcCount (world st)
    ∧ sources (world st') = sources (world st)
    ∧ emitted st' = emitted st ++ [(DBCFileChanged, world st')].
Proof.
  intros Hfiles Hpass Hf Hname Hctor.
  assert (next_ptr (world st) ≠ p) as Hne.
  { intros E. pose proof (next_ptr_fresh (world st)) as Hfresh.
    rewrite E, Hf in Hfresh. done. }
  exists (next_ptr (world st)). eexists. split.
  { rewrite open_after_scan, Hfiles, open_scan_pass by done.
    rewrite open_scan_unfold, Hf, decide_False by done.
    rewrite decide_True, Hctor by done. reflexivity. }
  simpl. split_and!; try done.
  - rewrite Hfiles, insert_app_r_alt by lia.
    by rewrite Nat.sub_diag.
  - apply next_ptr_fresh.
  - rewrite lookup_delete_ne by done. by rewrite lookup_insert_eq.
  - by rewrite lookup_delete_eq.
  - intros q Hq Hq'. rewrite lookup_delete_ne by done.
    by rewrite lookup_insert_ne.
  - unfold dbcCount. simpl. by rewrite length_insert.
Qed.

(** X5. [open] for a file name that an open file has, when the loop
    reaches that file first: nothing is constructed or deleted (the
    constructor is not consulted), the stored pointers and [dbcCount()]
    stay, [true] is returned and [DBCFileChanged] is emitted once. *)
Theorem open_already_open st (s : SourceSet) (name : QString) error
    pre ss p f post :
  dbc_files (world st) = pre ++ (ss, p) :: post →
  Forall (passed s name (world st)) pre →
  heap (world st) !! p = Some f →
  filename f = name →
  ∃ st',
    open s name error st = Some ((true, error), st')
    ∧ heap (world st') = heap (world st)
    ∧ (dbc_files (world st')).*2 = (dbc_files (world st)).*2
    ∧ dbcCount (world st') = dbcCount (world st)
    ∧ emitted st' = emitted st ++ [(DBCFileChanged, world st')].
Proof.
  intros Hfiles Hpass Hf Hname.
  exists (after_emit DBCFileChanged st). split; [|done].
  rewrite open_after_scan, Hfiles, open_scan_pass by done.
  by rewrite open_scan_unfold, Hf, decide_True.
Qed.

(** What the loop of [open] has done when it returns. *)
Lemma open_scan_returns st (s : SourceSet) (name : QString) error l :
  ∀ i r st',
    open_scan s name error i l st = Some (r, st') →
    match r with
    | None => st' = st
    | Some (true, e) =>
        e = error
        ∧ emitted st' = emitted st ++ [(DBCFileChanged, world st')]
    | Some (false, e) =>
        st' = st ∧ ∃ what, DBCFile_new name = inl what
                           ∧ e = report error what
    end.
Proof.
  induction l as [|[ss p] l IH]; intros i r st' Hrun.
  - by injection Hrun as <- <-.
  - rewrite open_scan_unfold in Hrun.
    destruct (heap (world st) !! p) as [f|]; [|done].
    case_decide; [by injection Hrun as <- <-|].
    case_decide; [|by eapply IH].
    destruct (DBCFile_new name) as [what|d] eqn:Hctor;
      injection Hrun as <- <-; [|done].
    split; [done|]. by exists what.
Qed.

(** X6. Whenever [open] returns: it returns [true] exactly when it has
    emitted [DBCFileChanged], once and as its last act; when it returns
    [false] the constructor has thrown, [*error] holds the [what()] of the
    exception (when [error] is not null), and the state is as it was; when
    it returns [true], [*error] is untouched. *)
Theorem open_true_iff_notified st (s : SourceSet) (name : QString) error
    b e st' :
  open s name error st = Some ((b, e), st') →
  emitted st' =
    emitted st ++ (if b then [(DBCFileChanged, world st')] else [])
  ∧ (b = false →
     st' = st ∧ ∃ what, DBCFile_new name = inl what
                        ∧ e = report error what)
  ∧ (b = true → e = error).
Proof.
  rewrite open_after_scan. intros Hrun.
  destruct (open_scan s name error 0 (dbc_files (world st)) st)
    as [[r st1]|] eqn:Hscan; [|done].
  apply open_scan_returns in Hscan.
  destruct r as [[[|] e1]|].
  - injection Hrun as <- <- <-. destruct Hscan as [-> ->].
    split_and!; done.
  - injection Hrun as <- <- <-. destruct Hscan as [-> Hwhat].
    rewrite app_nil_r. split_and!; done.
  - subst st1. destruct (DBCFile_new name) as [what|d] eqn:Hctor.
    + injection Hrun as <- <- <-. rewrite app_nil_r.
      split_and!; [done| |done]. intros _. split; [done|]. by exists what.
    + injection Hrun as <- <- <-. split_and!; done.
Qed.

End OpenPaths.

(** ** Exact ownership *)

Section ExactOwnership.
Context {D : Decls}.
Local Open Scope dbc_scope.
Implicit Types (w : World) (st : State) (l pre post : list (SourceSet * ptr)).

Lemma tight_with_file w p f :
  tight w → is_Some (heap w !! p) → tight (with_file p f w).
Proof.
  intros Htight Hp q. simpl.
  destruct (decide (p = q)) as [<-|Hne].
  - intros _. by apply Htight.
  - rewrite lookup_insert_ne by done. apply Htight.
Qed.

Lemma tight_push_back w (s : SourceSet) p d :
  tight w →
  tight (mkWorld (dbc_files w ++ [(s, p)]) (sources w) (<[p := d]> (heap w))).
Proof.
  intros Htight q. simpl. rewrite fmap_app, elem_of_app. simpl.
  destruct (decide (p = q)) as [<-|Hne].
  - intros _. right. by left.
  - rewrite lookup_insert_ne by done. intros Hq. left. by apply Htight.
Qed.

Lemma tight_replace pre post ss p (s : SourceSet) p' known h d :
  tight (mkWorld (pre ++ (ss, p) :: post) known h) →
  tight (mkWorld (pre ++ (s, p') :: post) known (delete p (<[p' := d]> h))).
Proof.
  intros Htight q. simpl. rewrite fmap_app, fmap_cons, elem_of_app. simpl.
  destruct (decide (q = p)) as [->|Hp]; [by rewrite lookup_delete_eq; intros []|].
  rewrite lookup_delete_ne by done.
  destruct (decide (p' = q)) as [<-|Hp']; [intros _; right; by left|].
  rewrite lookup_insert_ne by done. intros Hq.
  specialize (Htight q Hq). simpl in Htight.
  rewrite fmap_app, fmap_cons, elem_of_app in Htight. simpl in Htight.
  destruct Htight as [?|[?|?]%elem_of_cons]; [by left|done|].
  right. by right.
Qed.

Lemma open_scan_tight (s : SourceSet) (name : QString) error l :
  ∀ pre st r st',
    dbc_files (world st) = pre ++ l → tight (world st) →
    open_scan s name error (length pre) l st = Some (r, st') →
    tight (world st').
Proof.
  induction l as [|[ss p] l IH]; intros pre st r st' Hfiles Htight Hrun.
  - by injection Hrun as _ <-.
  - rewrite open_scan_unfold in Hrun.
    destruct (heap (world st) !! p) as [f|]; [|done].
    case_decide; [by injection Hrun as _ <-|].
    case_decide.
    + destruct (DBCFile_new name) as [what|d];
        injection Hrun as _ <-; [done|].
      simpl. rewrite Hfiles, insert_app_r_alt, Nat.sub_diag by lia. simpl.
      apply (tight_replace pre l ss p).
      rewrite <- Hfiles. by destruct (world st).
    + apply (IH (pre ++ [(ss, p)]) st r st'); [|done|].
      * by rewrite <- app_assoc.
      * rewrite length_app. simpl. by rewrite Nat.add_1_r.
Qed.

Lemma open_tight st (s : SourceSet) (name : QString) error r st' :
  tight (world st) → open s name error st = Some (r, st') →
  tight (world st').
Proof.
  intros Htight. rewrite open_after_scan.
  destruct (open_scan s name error 0 (dbc_files (world st)) st)
    as [[r1 st1]|] eqn:Hscan; [|done].
  pose proof (open_scan_tight s name error _ [] st r1 st1 eq_refl Htight
                Hscan) as Htight1.
  pose proof (open_scan_returns _ _ _ _ _ _ _ _ Hscan) as Hret.
  destruct r1 as [r1|]; [by intros [= _ <-]|]. subst st1.
  destruct (DBCFile_new name) as [what|d]; intros [= _ <-]; [done|].
  by apply tight_push_back.
Qed.

(** An edit that returns leaves the memory tight. *)
Ltac edit_tight Hrun :=
  destruct (findDBCFile_id _ _) as [[? ?p]|]; [|discriminate Hrun];
  match type of Hrun with
  | match ?h !! ?p with _ => _ end = _ =>
      destruct (h !! p) as [?f|] eqn:?Hf; [|discriminate Hrun]
  end;
  injection Hrun as <-;
  repeat case_match; try done;
  by apply tight_with_file.

Lemma step_tight st st' :
  step st st' → owns (world st) → tight (world st) → tight (world st').
Proof.
  intros Hstep Howns Htight. destruct Hstep as
    [s name error r st st' Hrun
    |s name content error r st st' Hrun
    |st st' Hrun
    |id sig st st' Hrun
    |id sig_name sig st st' Hrun
    |id sig_name st st' Hrun
    |id name size st st' Hrun
    |id st st' Hrun
    |src r st st' Hrun
    |s st st' Hrun].
  - by eapply open_tight.
  - unfold open_content in Hrun.
    destruct (DBCFile_new_content name content) as [what|d];
      injection Hrun as _ <-; [done|].
    by apply tight_push_back.
  - destruct (closeAll_loop_owned _ (world st) eq_refl Howns)
      as (h & E & Hh).
    unfold closeAll, bind, get in Hrun. simpl in Hrun.
    rewrite E in Hrun. injection Hrun as <-.
    intros q. simpl. rewrite Hh. case_decide as Hq; [by intros []|].
    intros Hlive. destruct Hq. by apply Htight.
  - rewrite addSignal_eq in Hrun. edit_tight Hrun.
  - rewrite updateSignal_eq in Hrun. edit_tight Hrun.
  - rewrite removeSignal_eq in Hrun. edit_tight Hrun.
  - rewrite updateMsg_eq in Hrun. edit_tight Hrun.
  - rewrite removeMsg_eq in Hrun. edit_tight Hrun.
  - unfold getMessages, bind, get in Hrun. simpl in Hrun.
    destruct (findDBCFile_id _ _) as [[? p]|]; [|by injection Hrun as _ <-].
    unfold deref, bind, get in Hrun. simpl in Hrun.
    destruct (heap (world st) !! p); [|done]. by injection Hrun as _ <-.
  - by injection Hrun as <-.
Qed.

Lemma reachable_tight st : reachable st → tight (world st).
Proof.
  intros Hreach. cut (owns (world st) ∧ tight (world st)); [by intros []|].
  revert st Hreach.
  apply (rtc_ind_r (λ st, owns (world st) ∧ tight (world st)) init).
  - split; [split; [|unfold live]; constructor|].
    intros q. simpl. rewrite lookup_empty. by intros [].
  - intros st1 st2 _ Hstep [Howns Htight]. split.
    + by eapply step_owns.
    + by eapply step_tight.
Qed.

(** X1. In every state the manager can reach from its construction, the
    [DBCFile] objects in memory are exactly the ones [dbc_files] points
    to, each pointed to once: no stored pointer dangles, no file is stored
    twice, and no file is left in memory without a pair. *)
Theorem reachable_exact_ownership st :
  reachable st →
  NoDup (dbc_files (world st)).*2
  ∧ ∀ p, p ∈ (dbc_files (world st)).*2 ↔ is_Some (heap (world st) !! p).
Proof.
  intros Hreach.
  destruct (reachable_owns st Hreach) as [Hnd Hlive].
  pose proof (reachable_tight st Hreach) as Htight.
  split; [done|]. intros p. split; [|apply Htight].
  intros ([ss q] & -> & Hin)%list_elem_of_fmap.
  unfold live in Hlive. rewrite Forall_forall in Hlive.
  by apply (Hlive (ss, q)).
Qed.

(** X2. In every reachable state the member functions that change the
    manager use no dead pointer: [open], [open(name, content)] and
    [closeAll] always return, and each edit returns exactly when its key
    resolves (otherwise its [assert] fails). *)
Theorem reachable_never_faults st :
  reachable st →
  (∀ s name error, is_Some (open s name error st))
  ∧ (∀ s name content error, is_Some (open_content s name content error st))
  ∧ is_Some (closeAll st)
  ∧ (∀ id sig, is_Some (addSignal id sig st)
               ↔ is_Some (findDBCFile_id (world st) id))
  ∧ (∀ id sig_name sig, is_Some (updateSignal id sig_name sig st)
                        ↔ is_Some (findDBCFile_id (world st) id))
  ∧ (∀ id sig_name, is_Some (removeSignal id sig_name st)
                    ↔ is_Some (findDBCFile_id (world st) id))
  ∧ (∀ id name size, is_Some (updateMsg id name size st)
                     ↔ is_Some (findDBCFile_id (world st) id))
  ∧ (∀ id, is_Some (removeMsg id st)
           ↔ is_Some (findDBCFile_id (world st) id)).
Proof.
  intros Hreach. pose proof (reachable_owns st Hreach) as Howns.
  assert (∀ id ss p, findDBCFile_id (world st) id = Some (ss, p) →
            is_Some (heap (world st) !! p)) as Hlive.
  { intros id ss p. apply findDBCFile_live, Howns. }
  split_and!.
  - intros s name error.
    by destruct (open_owns st s name error Howns) as (r & st' & -> & _).
  - intros s name content error.
    by destruct (open_content_owns st s name content error Howns)
      as (r & st' & -> & _).
  - destruct (closeAll_loop_owned _ (world st) eq_refl Howns)
      as (h & E & _).
    unfold closeAll, bind, get. simpl. by rewrite E.
  - intros id sig. rewrite addSignal_eq.
    destruct (findDBCFile_id (world st) id) as [[ss p]|] eqn:Hfind;
      [|by split; intros []].
    by destruct (Hlive id ss p Hfind) as [f ->].
  - intros id sig_name sig. rewrite updateSignal_eq.
    destruct (findDBCFile_id (world st) id) as [[ss p]|] eqn:Hfind;
      [|by split; intros []].
    by destruct (Hlive id ss p Hfind) as [f ->].
  - intros id sig_name. rewrite removeSignal_eq.
    destruct (findDBCFile_id (world st) id) as [[ss p]|] eqn:Hfind;
      [|by split; intros []].
    by destruct (Hlive id ss p Hfind) as [f ->].
  - intros id name size. rewrite updateMsg_eq.
    destruct (findDBCFile_id (world st) id) as [[ss p]|] eqn:Hfind;
      [|by split; intros []].
    by destruct (Hlive id ss p Hfind) as [f ->].
  - intros id. rewrite removeMsg_eq.
    destruct (findDBCFile_id (world st) id) as [[ss p]|] eqn:Hfind;
      [|by split; intros []].
    by destruct (Hlive id ss p Hfind) as [f ->].
Qed.

End ExactOwnership.

(** ** Appending from content, the wildcard, and what edits leave alone *)

Section Composition.
Context {D : Decls}.
Local Open Scope dbc_scope.
Implicit Types (w : World) (st : State) (id : MessageId).

(** X7. [open(s, name, content, error)] never looks at [dbc_files]: when
    the constructor throws it returns [false], reports [what()] and leaves
    the state as it was; otherwise it puts the new file at an address that
    was not in use and its pair at the back, whatever pairs are there
    (also one with the same set or the same file name), and emits
    [DBCFileChanged] once.  Being at the back, the new pair takes no source
    from a set that contained it before. *)
Theorem open_content_appends st (s : SourceSet) (name content : QString)
    error :
  match DBCFile_new_content name content with
  | inl what =>
      open_content s name content error st
        = Some ((false, report error what), st)
  | inr d =>
      ∃ p' st',
        open_content s name content error st = Some ((true, error), st')
        ∧ dbc_files (world st') = dbc_files (world st) ++ [(s, p')]
        ∧ heap (world st) !! p' = None
        ∧ heap (world st') = <[p' := d]> (heap (world st))
        ∧ dbcCount (world st') = (dbcCount (world st) + 1)%Z
        ∧ emitted st' = emitted st ++ [(DBCFileChanged, world st')]
        ∧ (∀ c r, find_containing c (dbc_files (world st)) = Some r →
                  findDBCFile (world st') c = Some r)
        ∧ (∀ c, c ∈ s → find_containing c (dbc_files (world st)) = None →
                findDBCFile (world st') c = Some (s, p'))
  end.
Proof.
  unfold open_content.
  destruct (DBCFile_new_content name content) as [what|d]; [done|].
  set (p' := next_ptr (world st)).
  set (w' := mkWorld (dbc_files (world st) ++ [(s, p')]) (sources (world st))
                     (<[p' := d]> (heap (world st)))).
  destruct (findDBCFile_push_back (world st) w' s p' eq_refl)
    as [Hbefore Hnew].
  exists p', (mkState w' (emitted st ++ [(DBCFileChanged, w')])).
  split_and!; try done.
  - apply next_ptr_fresh.
  - unfold dbcCount. simpl. rewrite length_app. simpl. lia.
Qed.

(** X8. A key whose source is in no stored set, with a file stored under
    [SOURCE_ALL]: after [updateSources(known)], [updateMsg], [removeMsg]
    and an accepted [addSignal] for that key change the [SOURCE_ALL] file
    and emit once for every source of [known], and for no other.  With
    [known] empty they change the file and emit nothing. *)
Theorem wildcard_edits_reach_known_sources st (known : SourceSet) id p f :
  find_containing (source id) (dbc_files (world st)) = None →
  find_all (dbc_files (world st)) = Some p →
  heap (world st) !! p = Some f →
  (∀ name size,
     ∃ w', (updateSources known ;; updateMsg id name size) st
             = Some (tt, mkState w'
                 (emitted st ++
                  map (λ c, (msgUpdated (mkMessageId c (address id)), w'))
                      (elements known)))
           ∧ heap w' !! p = Some (dbc_updateMsg id name size f))
  ∧ (∃ w', (updateSources known ;; removeMsg id) st
             = Some (tt, mkState w'
                 (emitted st ++
                  map (λ c, (msgRemoved (mkMessageId c (address id)), w'))
                      (elements known)))
           ∧ heap w' !! p = Some (dbc_removeMsg id f))
  ∧ (∀ sig s, (dbc_addSignal id sig f).1 = Some s →
     ∃ w', (updateSources known ;; addSignal id sig) st
             = Some (tt, mkState w'
                 (emitted st ++
                  map (λ c, (signalAdded (mkMessageId c (address id)) s, w'))
                      (elements known)))
           ∧ heap w' !! p = Some (dbc_addSignal id sig f).2)
  ∧ (known = ∅ → ∀ name size,
     ∃ w', (updateSources known ;; updateMsg id name size) st
             = Some (tt, mkState w' (emitted st))
           ∧ heap w' !! p = Some (dbc_updateMsg id name size f)).
Proof.
  intros Hnone Hall Hf.
  set (st1 := mkState (mkWorld (dbc_files (world st)) known (heap (world st)))
                      (emitted st)).
  assert (findDBCFile_id (world st1) id = Some (known, p)) as Hfind.
  { unfold findDBCFile_id, findDBCFile. simpl. by rewrite Hnone, Hall. }
  assert (∀ name size,
    ∃ w', (updateSources known ;; updateMsg id name size) st
            = Some (tt, mkState w'
                (emitted st ++
                 map (λ c, (msgUpdated (mkMessageId c (address id)), w'))
                     (elements known)))
          ∧ heap w' !! p = Some (dbc_updateMsg id name size f)) as HupdateMsg.
  { intros name size. eexists. split.
    - unfold bind at 1, updateSources, bind, get, put. simpl. fold st1.
      rewrite updateMsg_eq, Hfind. simpl. rewrite Hf. reflexivity.
    - simpl. apply lookup_insert_eq. }
  split_and!.
  - done.
  - eexists. split.
    + unfold bind at 1, updateSources, bind, get, put. simpl. fold st1.
      rewrite removeMsg_eq, Hfind. simpl. rewrite Hf. reflexivity.
    + simpl. apply lookup_insert_eq.
  - intros sig s Hs. eexists. split.
    + unfold bind at 1, updateSources, bind, get, put. simpl. fold st1.
      rewrite addSignal_eq, Hfind. simpl. rewrite Hf, Hs. reflexivity.
    + simpl. apply lookup_insert_eq.
  - intros -> name size.
    destruct (HupdateMsg name size) as (w' & Hrun & Hw').
    exists w'. split; [|done].
    rewrite Hrun, elements_empty. simpl. by rewrite app_nil_r.
Qed.

(** X10. When the file answers [msg(id)] with the entry of [getMessages()]
    at [id.address], the manager's [msg(id)] is the entry of its
    [getMessages(id.source)] at [id]: both resolve the same file, and a
    source that does not resolve gives no message and an empty map. *)
Theorem msg_agrees_with_getMessages st id :
  (∀ f, dbc_msg id f = dbc_getMessages f !! address id) →
  msg id st =
    match getMessages (source id) st with
    | Some (msgs, st') => Some (msgs !! id, st')
    | None => None
    end.
Proof.
  intros Hfile.
  unfold msg, getMessages, findDBCFile_id, bind, get. simpl.
  destruct (findDBCFile (world st) (source id)) as [[ss p]|].
  - rewrite deref_eq. destruct (heap (world st) !! p) as [f|]; [|done].
    unfold ret. rewrite rekey_lookup, decide_True by done.
    by rewrite Hfile.
  - unfold ret. by rewrite lookup_empty.
Qed.

(** X11. Two sources that resolve to the same file get the same messages
    from [getMessages], each under its own source: the entry for address
    [a] under the one source is the entry for [a] under the other. *)
Theorem getMessages_shared_file st (c1 c2 : uint8_t) ss1 ss2 p f :
  findDBCFile (world st) c1 = Some (ss1, p) →
  findDBCFile (world st) c2 = Some (ss2, p) →
  heap (world st) !! p = Some f →
  ∃ msgs1 msgs2,
    getMessages c1 st = Some (msgs1, st)
    ∧ getMessages c2 st = Some (msgs2, st)
    ∧ ∀ a, msgs1 !! mkMessageId c1 a = msgs2 !! mkMessageId c2 a.
Proof.
  intros H1 H2 Hf.
  exists (rekey c1 (dbc_getMessages f)), (rekey c2 (dbc_getMessages f)).
  split_and!.
  - unfold getMessages, findDBCFile_id, bind, get. simpl.
    by rewrite H1, deref_eq, Hf.
  - unfold getMessages, findDBCFile_id, bind, get. simpl.
    by rewrite H2, deref_eq, Hf.
  - intros a. rewrite !rekey_lookup. simpl. by rewrite !decide_True.
Qed.

(** What an edit that returns has left alone. *)
Ltac edit_frame Hrun :=
  destruct (findDBCFile_id _ _) as [[?ss ?p]|] eqn:?Hfind;
    [|discriminate Hrun];
  match type of Hrun with
  | match ?h !! ?p with _ => _ end = _ =>
      destruct (h !! p) as [?f|] eqn:?Hf; [|discriminate Hrun];
      injection Hrun as <-; exists p
  end.

(** X12. An edit that returns changes one file and nothing else: the file
    its key resolves to.  [dbc_files] and [sources] stay, so every source
    resolves as before; no file is created or deleted and every other file
    stays as it is; the notifications emitted so far stay, and none of the
    new ones is [DBCFileChanged]. *)
Theorem edit_changes_one_file id st st' :
  edit id st st' →
  ∃ p,
    snd <$> findDBCFile_id (world st) id = Some p
    ∧ dbc_files (world st') = dbc_files (world st)
    ∧ sources (world st') = sources (world st)
    ∧ (∀ c, findDBCFile (world st') c = findDBCFile (world st) c)
    ∧ (∀ q, q ≠ p → heap (world st') !! q = heap (world st) !! q)
    ∧ (∀ q, is_Some (heap (world st') !! q)
            ↔ is_Some (heap (world st) !! q))
    ∧ ∃ new, emitted st' = emitted st ++ new
             ∧ Forall (λ e, e.1 ≠ DBCFileChanged) new.
Proof.
  assert (∀ w p f',
    is_Some (heap w !! p) →
    dbc_files (with_file p f' w) = dbc_files w
    ∧ sources (with_file p f' w) = sources w
    ∧ (∀ c, findDBCFile (with_file p f' w) c = findDBCFile w c)
    ∧ (∀ q, q ≠ p → heap (with_file p f' w) !! q = heap w !! q)
    ∧ (∀ q, is_Some (heap (with_file p f' w) !! q)
            ↔ is_Some (heap w !! q))) as Hframe.
  { intros w p f' Hp. split_and!; try done.
    - intros q Hq. simpl. by rewrite lookup_insert_ne.
    - intros q. simpl. destruct (decide (p = q)) as [<-|Hq].
      + rewrite lookup_insert_eq. by split.
      + by rewrite lookup_insert_ne. }
  assert (∀ (A : Type) (e : A → Notification) w (xs : list A),
    (∀ x, e x ≠ DBCFileChanged) →
    Forall (λ n : Notification * World, n.1 ≠ DBCFileChanged)
           (map (λ x, (e x, w)) xs)) as Hmap.
  { intros A e w xs He. apply Forall_forall.
    intros n (x & -> & _)%list_elem_of_fmap. apply He. }
  intros [sig st0 st0' Hrun
         |sig_name sig st0 st0' Hrun
         |sig_name st0 st0' Hrun
         |name size st0 st0' Hrun
         |st0 st0' Hrun].
  - rewrite addSignal_eq in Hrun. edit_frame Hrun. simpl.
    destruct (Hframe (world st0) p (dbc_addSignal id sig f).2)
      as (? & ? & ? & ? & ?); [done|].
    split_and!; try done. eexists. split; [done|].
    destruct (dbc_addSignal id sig f).1; [by apply Hmap|constructor].
  - rewrite updateSignal_eq in Hrun. edit_frame Hrun. simpl.
    destruct (Hframe (world st0) p (dbc_updateSignal id sig_name sig f).2)
      as (? & ? & ? & ? & ?); [done|].
    split_and!; try done. eexists. split; [done|].
    destruct (dbc_updateSignal id sig_name sig f).1; by repeat constructor.
  - rewrite removeSignal_eq in Hrun. edit_frame Hrun. simpl.
    destruct (dbc_getSignal id sig_name f) as [s0|]; simpl.
    + destruct (Hframe (world st0) p (dbc_removeSignal id sig_name f))
        as (? & ? & ? & ? & ?); [done|].
      split_and!; try done. eexists. split; [done|]. by repeat constructor.
    + split_and!; try done. exists []. by rewrite app_nil_r.
  - rewrite updateMsg_eq in Hrun. edit_frame Hrun. simpl.
    destruct (Hframe (world st0) p (dbc_updateMsg id name size f))
      as (? & ? & ? & ? & ?); [done|].
    split_and!; try done. eexists. split; [done|]. by apply Hmap.
  - rewrite removeMsg_eq in Hrun. edit_frame Hrun. simpl.
    destruct (Hframe (world st0) p (dbc_removeMsg id f))
      as (? & ? & ? & ? & ?); [done|].
    split_and!; try done. eexists. split; [done|]. by apply Hmap.
Qed.

End Composition.

(** ** signalNames, msgCount and the other queries *)

Section Aggregated.
Context {D : Decls} {G : Aggregates}.
Local Open Scope dbc_scope.
Implicit Types (w : World) (st : State) (names : list QString).

Lemma collect_names_live st (l : list (SourceSet * ptr)) :
  Forall (λ x, is_Some (heap (world st) !! x.2)) l →
  ∀ names,
    collect_names l names st =
      Some (names ++ mjoin (dbc_signalNames <$>
                              omap (λ x, heap (world st) !! x.2) l), st).
Proof.
  induction 1 as [|[ss p] l [f Hf] _ IH]; intros names; simpl.
  - unfold ret. by rewrite app_nil_r.
  - simpl in Hf. unfold bind at 1. rewrite deref_eq, Hf. simpl.
    by rewrite IH, <- app_assoc.
Qed.

Lemma remove_seen_elem names : ∀ (seen : gset QString) x,
  x ∈ remove_seen seen names ↔ x ∈ names ∧ x ∉ seen.
Proof.
  induction names as [|y names IH]; intros seen x; simpl.
  - rewrite elem_of_nil. tauto.
  - case_decide as Hy.
    + rewrite IH, elem_of_cons. split; [tauto|].
      intros [[->|?] ?]; [done|tauto].
    + rewrite !elem_of_cons, IH, elem_of_union, elem_of_singleton.
      split.
      * intros [->|(? & ?)]; [tauto|]. split; [tauto|]. tauto.
      * intros [[->|?] ?]; [tauto|].
        destruct (decide (x = y)); [tauto|]. right. tauto.
Qed.

Lemma remove_seen_NoDup names : ∀ seen : gset QString,
  NoDup (remove_seen seen names).
Proof.
  induction names as [|y names IH]; intros seen; simpl; [constructor|].
  case_decide; [done|]. apply NoDup_cons. split; [|done].
  rewrite remove_seen_elem, elem_of_union, elem_of_singleton. tauto.
Qed.

Lemma remove_seen_sorted (R : relation QString) names :
  StronglySorted R names →
  ∀ seen : gset QString, StronglySorted R (remove_seen seen names).
Proof.
  induction 1 as [|y names _ IH Hy]; intros seen; simpl; [constructor|].
  case_decide; [done|]. constructor; [done|].
  rewrite Forall_forall in Hy. apply Forall_forall.
  intros x [Hx _]%remove_seen_elem. by apply Hy.
Qed.

(** X13. [signalNames], when the stored pointers are live: the state is
    untouched and the result is in ascending order, has no string twice,
    and holds exactly the signal names of the stored files (a name that
    several files have appears once). *)
Theorem signalNames_sorted_unique st :
  live (world st) →
  ∃ names,
    signalNames st = Some (names, st)
    ∧ StronglySorted String.le names
    ∧ NoDup names
    ∧ ∀ x, x ∈ names ↔
           ∃ f, f ∈ stored_files (world st) ∧ x ∈ dbc_signalNames f.
Proof.
  intros Hlive. eexists. split_and!.
  - unfold signalNames, bind, get. simpl.
    rewrite (collect_names_live _ _ Hlive). reflexivity.
  - apply remove_seen_sorted, StronglySorted_merge_sort; apply _.
  - apply remove_seen_NoDup.
  - intros x. unfold removeDuplicates, sort.
    rewrite remove_seen_elem, merge_sort_Permutation. simpl.
    rewrite list_elem_of_join. split.
    + intros [(ns & Hx & (f & -> & Hf)%list_elem_of_fmap) _]. by exists f.
    + intros (f & Hf & Hx). split; [|apply not_elem_of_empty].
      exists (dbc_signalNames f). split; [done|].
      apply list_elem_of_fmap. by exists f.
Qed.

Lemma count_msgs_live st (l : list (SourceSet * ptr)) :
  Forall (λ x, is_Some (heap (world st) !! x.2)) l →
  Forall (λ f, 0 ≤ dbc_msgCount f)%Z
         (omap (λ x, heap (world st) !! x.2) l) →
  ∀ count, (0 ≤ count ≤ INT_MAX)%Z →
    count_msgs l count st =
      let total :=
        (count + foldr Z.add 0 (dbc_msgCount <$>
                   omap (λ x, heap (world st) !! x.2) l))%Z in
      if decide (total ≤ INT_MAX)%Z then Some (total, st) else None.
Proof.
  assert (∀ fs : list DBCFile,
    Forall (λ f, 0 ≤ dbc_msgCount f)%Z fs →
    (0 ≤ foldr Z.add 0 (dbc_msgCount <$> fs))%Z) as Hnonneg.
  { induction 1; csimpl; lia. }
  induction 1 as [|[ss p] l [f Hf] _ IH]; intros Hpos count Hcount; simpl.
  - unfold ret. rewrite Z.add_0_r. by rewrite decide_True by lia.
  - simpl in Hf, Hpos. rewrite Hf in Hpos. simpl in Hpos.
    apply Forall_cons in Hpos as [Hposf Hpos].
    unfold bind at 1. rewrite deref_eq, Hf. simpl.
    unfold bind at 1, int_add.
    pose proof (Hnonneg _ Hpos) as Hrest.
    assert (INT_MIN < 0)%Z as Hmin by done.
    case_decide as Hfit.
    + unfold ret. rewrite IH by (done || lia). simpl.
      by rewrite Z.add_assoc.
    + rewrite decide_False; [done|].
      revert Hrest. unfold fmap, INT_MIN, INT_MAX in *. lia.
Qed.

(** X14. [msgCount], when the stored pointers are live and no file
    reports a negative count: it returns the sum of the counts of the
    stored files, a file counting once for its pair however many sources
    the pair has, and leaves the state untouched; when the sum does not
    fit an [int] the addition overflows. *)
Theorem msgCount_sums_files st :
  live (world st) →
  Forall (λ f, 0 ≤ dbc_msgCount f)%Z (stored_files (world st)) →
  msgCount st =
    let total :=
      foldr Z.add 0%Z (dbc_msgCount <$> stored_files (world st)) in
    if decide (total ≤ INT_MAX)%Z then Some (total, st) else None.
Proof.
  intros Hlive Hpos. unfold msgCount, bind, get. simpl.
  by rewrite (count_msgs_live _ _ Hlive Hpos 0%Z).
Qed.

(** X9. The queries, when the stored pointers are live: [getMessages],
    [msg(id)], [msg(source, name)] and [signalNames] return, emit nothing
    and leave the manager and every file as they were; [msgCount] does so
    whenever it returns. *)
Theorem queries_change_nothing st :
  live (world st) →
  (∀ c, ∃ msgs, getMessages c st = Some (msgs, st))
  ∧ (∀ id, ∃ m, msg id st = Some (m, st))
  ∧ (∀ c name, ∃ m, msg_name c name st = Some (m, st))
  ∧ (∃ names, signalNames st = Some (names, st))
  ∧ (∀ n st', msgCount st = Some (n, st') → st' = st).
Proof.
  intros Hlive.
  assert (∀ c, match findDBCFile (world st) c with
               | Some (_, p) => is_Some (heap (world st) !! p)
               | None => True
               end) as Hres.
  { intros c. destruct (findDBCFile (world st) c) as [[ss p]|] eqn:E; [|done].
    by eapply findDBCFile_live. }
  split_and!.
  - intros c. unfold getMessages, findDBCFile_id, bind, get. simpl.
    specialize (Hres c).
    destruct (findDBCFile (world st) c) as [[ss p]|]; [|by eexists].
    destruct Hres as [f Hf]. rewrite deref_eq, Hf. by eexists.
  - intros id. unfold msg, findDBCFile_id, bind, get. simpl.
    specialize (Hres (source id)).
    destruct (findDBCFile (world st) (source id)) as [[ss p]|];
      [|by eexists].
    destruct Hres as [f Hf]. rewrite deref_eq, Hf. by eexists.
  - intros c name. unfold msg_name, findDBCFile_id, bind, get. simpl.
    specialize (Hres c).
    destruct (findDBCFile (world st) c) as [[ss p]|]; [|by eexists].
    destruct Hres as [f Hf]. rewrite deref_eq, Hf. by eexists.
  - eexists. unfold signalNames, bind, get. simpl.
    rewrite (collect_names_live _ _ Hlive). reflexivity.
  - unfold msgCount, bind, get. simpl.
    generalize 0%Z. unfold live in Hlive.
    induction Hlive as [|[ss p] l [f Hf] _ IH]; intros count n st' Hrun.
    + by injection Hrun as _ <-.
    + simpl in Hrun, Hf. unfold bind at 1 in Hrun.
      rewrite deref_eq, Hf in Hrun. simpl in Hrun.
      unfold bind at 1, int_add in Hrun.
      case_decide; [|done]. unfold ret in Hrun. by eapply IH.
Qed.

(** X15. [closeAll] in a reachable state: it returns, and afterwards no
    [DBCFile] is left in memory, [dbc_files] is empty, [signalNames] is
    empty and [msgCount] is 0; the state it leaves is reachable. *)
Theorem closeAll_frees_everything st :
  reachable st →
  ∃ st',
    closeAll st = Some (tt, st')
    ∧ dbc_files (world st') = []
    ∧ heap (world st') = ∅
    ∧ signalNames st' = Some ([], st')
    ∧ msgCount st' = Some (0%Z, st')
    ∧ reachable st'.
Proof.
  intros Hreach.
  pose proof (reachable_owns st Hreach) as Howns.
  pose proof (reachable_tight st Hreach) as Htight.
  destruct (closeAll_loop_owned _ (world st) eq_refl Howns)
    as (h & Hloop & Hh).
  assert (h = ∅) as ->.
  { apply map_eq. intros p. rewrite Hh, lookup_empty.
    case_decide as Hp; [done|].
    destruct (heap (world st) !! p) eqn:E; [|done].
    destruct Hp. by apply Htight. }
  assert (closeAll st =
    Some (tt, after_emit DBCFileChanged
                (mkState (mkWorld [] (sources (world st)) ∅) (emitted st))))
    as Hrun.
  { unfold closeAll, bind, get. simpl. by rewrite Hloop. }
  eexists. split_and!; [exact Hrun|done..|].
  eapply rtc_r; [exact Hreach|]. by apply step_closeAll.
Qed.

End Aggregated.

(** ** More runs on the small database *)

Section MoreExamples.
Import Simple SimpleAggregates.
Local Open Scope dbc_scope.

Lemma st_opened_reachable : reachable st_opened.
Proof.
  eapply rtc_l; [|apply rtc_refl].
  apply (step_open {[1]} "a.dbc" None (true, None)). reflexivity.
Qed.

Lemma reachable_exact_ownership_witness :
  reachable st_opened
  ∧ NoDup (dbc_files (world st_opened)).*2
  ∧ (1%positive ∈ (dbc_files (world st_opened)).*2
     ↔ is_Some (heap (world st_opened) !! 1%positive))
  ∧ (2%positive ∈ (dbc_files (world st_opened)).*2
     ↔ is_Some (heap (world st_opened) !! 2%positive)).
Proof.
  pose proof st_opened_reachable as Hreach.
  destruct (reachable_exact_ownership (D := decls) st_opened Hreach)
    as [Hnd Hexact].
  split_and!; [done|done|apply Hexact..].
Defined.

Lemma reachable_never_faults_witness :
  reachable st_opened
  ∧ is_Some (open {[1]} "" None st_opened)
  ∧ is_Some (closeAll st_opened)
  ∧ is_Some (addSignal (mkMessageId 1 16) speed st_opened)
  ∧ ¬ is_Some (addSignal (mkMessageId 7 16) speed st_opened).
Proof.
  pose proof st_opened_reachable as Hreach.
  destruct (reachable_never_faults (D := decls) st_opened Hreach)
    as (Hopen & _ & Hclose & Hadd & _).
  split_and!; [done|apply Hopen|done| |].
  - apply Hadd. compute_done.
  - rewrite Hadd. compute_done.
Defined.

Lemma open_appends_witness :
  ∃ p' st',
    open {[2]} "b.dbc" None (mkState world_a []) = Some ((true, None), st')
    ∧ dbc_files (world st') = [({[1]}, 1%positive); ({[2]}, p')]
    ∧ dbcCount (world st') = 2%Z
    ∧ findDBCFile (world st') 1 = Some ({[1]}, 1%positive)
    ∧ findDBCFile (world st') 2 = Some ({[2]}, p').
Proof.
  destruct (open_appends (D := decls) (mkState world_a []) {[2]} "b.dbc"
              None (mkDbc "b.dbc" ∅))
    as (p' & st' & Hrun & Hfiles & _ & _ & Hcount & _ & Hold & Hnew).
  - repeat constructor. exists file_a. split_and!; compute_done.
  - reflexivity.
  - exists p', st'. split_and!; [done..| |].
    + by apply Hold.
    + apply Hnew; compute_done.
Defined.

Lemma open_replaces_witness :
  ∃ p' st',
    open {[0]} "b.dbc" None (mkState world_two []) = Some ((true, None), st')
    ∧ dbc_files (world st') = [({[0]}, p'); ({[1]}, 2%positive)]
    ∧ heap (world st') !! p' = Some (mkDbc "b.dbc" ∅)
    ∧ heap (world st') !! 1%positive = None
    ∧ heap (world st') !! 2%positive = Some file_b.
Proof.
  destruct (open_replaces (D := decls) (mkState world_two []) {[0]} "b.dbc"
              None [] 1%positive file_a [({[1]}, 2%positive)]
              (mkDbc "b.dbc" ∅))
    as (p' & st' & Hrun & Hfiles & Hne & Hfresh & Hnew & Hold & Hother & _);
    [reflexivity|constructor|reflexivity|done|reflexivity|].
  exists p', st'. split_and!; [done..|].
  rewrite Hother; [done|done|].
  intros <-. by vm_compute in Hfresh.
Defined.

Lemma open_already_open_witness :
  ∃ st',
    open {[5]} "b.dbc" None (mkState world_two []) = Some ((true, None), st')
    ∧ heap (world st') = heap world_two
    ∧ dbcCount (world st') = 2%Z
    ∧ emitted st' = [(DBCFileChanged, world st')].
Proof.
  destruct (open_already_open (D := decls) (mkState world_two []) {[5]}
              "b.dbc" None [({[0]}, 1%positive)] {[1]} 2%positive file_b [])
    as (st' & Hrun & Hheap & _ & Hcount & Hlog);
    [reflexivity| |reflexivity|reflexivity|].
  - repeat constructor. exists file_a. split_and!; compute_done.
  - by exists st'.
Defined.

Lemma open_true_iff_notified_witness :
  open {[1]} "" (Some "unset") (mkState world_a [])
    = Some ((false, Some "Failed to open file"), mkState world_a [])
  ∧ emitted (mkState world_a []) = [].
Proof.
  assert (open {[1]} "" (Some "unset") (mkState world_a [])
          = Some ((false, Some "Failed to open file"), mkState world_a []))
    as Hrun by reflexivity.
  split; [done|].
  destruct (open_true_iff_notified (D := decls) _ _ _ _ _ _ _ Hrun)
    as (Hlog & _ & _).
  by rewrite app_nil_r in Hlog.
Defined.

Lemma open_content_appends_witness :
  ∃ p' st',
    open_content {[1]} "inline" "BO_ 16 WHEEL: 8" None (mkState world_a [])
      = Some ((true, None), st')
    ∧ dbc_files (world st') = [({[1]}, 1%positive); ({[1]}, p')]
    ∧ findDBCFile (world st') 1 = Some ({[1]}, 1%positive).
Proof.
  pose proof (open_content_appends (D := decls) (mkState world_a []) {[1]}
                "inline" "BO_ 16 WHEEL: 8" None) as Happ.
  destruct Happ as (p' & st' & Hrun & Hfiles & _ & _ & _ & _ & Hold & _).
  exists p', st'. split_and!; [done..|]. by apply Hold.
Defined.

Lemma wildcard_edits_reach_known_sources_witness :
  (∃ w', (updateSources {[5; 6]} ;; updateMsg (mkMessageId 5 16) "WHEEL" 8)
           (mkState world_wild [])
         = Some (tt, mkState w'
             (map (λ c, (msgUpdated (mkMessageId c 16), w'))
                  (elements ({[5; 6]} : gset N)))))
  ∧ size ({[5; 6]} : gset N) = 2%nat
  ∧ ∃ w', (updateSources ∅ ;; updateMsg (mkMessageId 5 16) "WHEEL" 8)
            (mkState world_wild [])
          = Some (tt, mkState w' [])
          ∧ heap w' !! 1%positive
            = Some (mkDbc "a.dbc" {[16 := mkMessage "WHEEL" 8 []]}).
Proof.
  destruct (wildcard_edits_reach_known_sources (D := decls)
              (mkState world_wild []) {[5; 6]} (mkMessageId 5 16)
              1%positive file_a eq_refl eq_refl eq_refl)
    as (Hupdate & _).
  destruct (wildcard_edits_reach_known_sources (D := decls)
              (mkState world_wild []) ∅ (mkMessageId 5 16)
              1%positive file_a eq_refl eq_refl eq_refl)
    as (_ & _ & _ & Hnone).
  split_and!.
  - destruct (Hupdate "WHEEL" 8) as (w' & Hrun & _). by exists w'.
  - compute_done.
  - destruct (Hnone eq_refl "WHEEL" 8) as (w' & Hrun & Hfile).
    by exists w'.
Defined.

Lemma queries_change_nothing_witness :
  live world_bc
  ∧ (∃ msgs, getMessages 1 (mkState world_bc []) = Some (msgs, mkState world_bc []))
  ∧ (∃ m, msg (mkMessageId 1 32) (mkState world_bc [])
            = Some (m, mkState world_bc [])).
Proof.
  assert (live world_bc) as Hlive by (unfold live; compute_done).
  destruct (queries_change_nothing (D := decls) (mkState world_bc []) Hlive)
    as (Hget & Hmsg & _).
  split_and!; [done|apply Hget|apply Hmsg].
Defined.

Lemma msg_agrees_with_getMessages_witness :
  ∃ msgs,
    getMessages 1 (mkState world_bc []) = Some (msgs, mkState world_bc [])
    ∧ msg (mkMessageId 1 32) (mkState world_bc [])
      = Some (msgs !! mkMessageId 1 32, mkState world_bc []).
Proof.
  pose proof (msg_agrees_with_getMessages (D := decls) (mkState world_bc [])
                (mkMessageId 1 32) (λ f, eq_refl)) as Hmsg.
  assert (getMessages 1 (mkState world_bc [])
          = Some (rekey 1 (@dbc_getMessages decls file_c),
                  mkState world_bc []))
    as Hget by reflexivity.
  change (source (mkMessageId 1 32)) with 1 in Hmsg.
  rewrite Hget in Hmsg.
  eexists. split; [exact Hget|exact Hmsg].
Defined.

Lemma getMessages_shared_file_witness :
  ∃ msgs1 msgs3,
    getMessages 1 (mkState world_b []) = Some (msgs1, mkState world_b [])
    ∧ getMessages 3 (mkState world_b []) = Some (msgs3, mkState world_b [])
    ∧ msgs1 !! mkMessageId 1 16 = msgs3 !! mkMessageId 3 16.
Proof.
  destruct (getMessages_shared_file (D := decls) (mkState world_b []) 1 3
              {[1; 2; 3]} {[1; 2; 3]} 1%positive file_b
              eq_refl eq_refl eq_refl)
    as (msgs1 & msgs3 & H1 & H3 & Hsame).
  exists msgs1, msgs3. by split_and!.
Defined.

Lemma edit_changes_one_file_witness :
  ∃ st',
    updateMsg (mkMessageId 1 16) "BRAKE" 4 (mkState world_bc []) = Some (tt, st')
    ∧ dbc_files (world st') = dbc_files world_bc
    ∧ heap (world st') !! 1%positive = Some file_b.
Proof.
  assert (∃ st', updateMsg (mkMessageId 1 16) "BRAKE" 4
                           (mkState world_bc []) = Some (tt, st'))
    as [st' Hrun] by (eexists; reflexivity).
  destruct (edit_changes_one_file (D := decls) (mkMessageId 1 16)
              (mkState world_bc []) st' (edit_updateMsg _ _ _ _ _ Hrun))
    as (p & Hp & Hfiles & _ & _ & Hother & _).
  exists st'. split_and!; [done..|].
  change (Some 2%positive = Some p) in Hp. injection Hp as <-.
  by rewrite Hother.
Defined.

Lemma signalNames_sorted_unique_witness :
  live world_bc
  ∧ signalNames (mkState world_bc [])
    = Some (["angle"; "rpm"; "speed"], mkState world_bc []).
Proof.
  assert (live world_bc) as Hlive by (unfold live; compute_done).
  split; [done|].
  destruct (signalNames_sorted_unique (D := decls) (mkState world_bc [])
              Hlive) as (names & Hrun & _).
  rewrite Hrun. f_equal. f_equal.
  assert (signalNames (mkState world_bc [])
          = Some (["angle"; "rpm"; "speed"], mkState world_bc []))
    as Hnames by reflexivity.
  rewrite Hrun in Hnames. by injection Hnames.
Defined.

Lemma msgCount_sums_files_witness :
  live world_bc
  ∧ msgCount (mkState world_bc []) = Some (3%Z, mkState world_bc []).
Proof.
  assert (live world_bc) as Hlive by (unfold live; compute_done).
  split; [done|].
  rewrite (msgCount_sums_files (D := decls) (mkState world_bc []) Hlive)
    by compute_done.
  reflexivity.
Defined.

Lemma closeAll_frees_everything_witness :
  ∃ st',
    closeAll st_opened = Some (tt, st')
    ∧ heap (world st') = ∅
    ∧ msgCount st' = Some (0%Z, st').
Proof.
  destruct (closeAll_frees_everything (D := decls) st_opened
              st_opened_reachable)
    as (st' & Hrun & _ & Hheap & _ & Hcount & _).
  by exists st'.
Defined.

End MoreExamples.
